(** * A character-level recurrent language model: vocabulary, training loop
      and sampling (Lecture 12, Recurrent_Neural_Networks.ipynb)

    The notebook is embedded shallowly.  Python integers are [Z], ids are
    [nat], a [str] is a list of characters over any countable alphabet, a
    [dict] is a [gmap], a [set] is a [gset].  A function that can raise
    returns a [result]; a function that cannot raise is a total function.
    The numeric kernels of torch and numpy (embedding, GRU, linear layer,
    loss, Adam, the random generators) are library code: they enter through
    the interface [Torch], and what the proofs use of their documented
    behaviour is stated in [TorchLaws]. *)

From Stdlib Require Import QArith Qcanon Ascii String.
From stdpp Require Import base numbers gmap sets list strings.

Open Scope Z_scope.

(** ** Python exceptions and results *)

(** What torch reports as a RuntimeError. *)
Inductive torch_error : Set :=
  | IndexOutOfRange      (* an embedding index or a loss target out of range *)
  | InvalidMultinomial.  (* weights that [torch.multinomial] rejects *)

Inductive exn : Set :=
  | KeyError
  | IndexError
  | ValueError
  | ZeroDivisionError
  | RuntimeError (why : torch_error).

Inductive result (A : Type) : Type :=
  | Ok (a : A)
  | Raise (e : exn).
Arguments Ok {A} a.
Arguments Raise {A} e.

Definition result_bind {A B} (r : result A) (k : A → result B) : result B :=
  match r with Ok a => k a | Raise e => Raise e end.

Definition from_result {A} (d : A) (r : result A) : A :=
  match r with Ok a => a | Raise _ => d end.

#[global] Instance result_ret : MRet result := @Ok.
#[global] Instance result_mbind : MBind result :=
  λ A B k r, result_bind r k.

(** ** Python and numpy sequence primitives *)

(** [len(l)] *)
Definition len {A} (l : list A) : Z := Z.of_nat (length l).

(** The clipping of one bound of a slice [l[lo:hi]] over a sequence of
    length [n]: a negative bound counts from the end. *)
Definition slice_bound (n i : Z) : Z :=
  if i <? 0 then Z.max (i + n) 0 else Z.min i n.

(** [l[lo:hi]] *)
Definition py_slice {A} (l : list A) (lo hi : Z) : list A :=
  let n := len l in
  let lo' := slice_bound n lo in
  let hi' := slice_bound n hi in
  take (Z.to_nat (hi' - lo')) (drop (Z.to_nat lo') l).

(** [l[i]]: a negative index counts from the end, an index out of range
    raises IndexError. *)
Definition getitem {A} (l : list A) (i : Z) : result A :=
  let j := if i <? 0 then i + len l else i in
  if (0 <=? j) && (j <? len l)
  then match l !! Z.to_nat j with Some a => Ok a | None => Raise IndexError end
  else Raise IndexError.

(** [a // b] on integers *)
Definition floordiv (a b : Z) : result Z :=
  if b =? 0 then Raise ZeroDivisionError else Ok (a / b).

(** [np.roll(a, shift, axis=0)] on a one-dimensional array: with
    [offset = shift % (len(a) or 1)], the result is [a[-offset:]] followed
    by [a[:-offset]]. *)
Definition np_roll {A} (a : list A) (shift : Z) : list A :=
  let n := len a in
  let offset := shift `mod` (if n =? 0 then 1 else n) in
  if offset =? 0 then a
  else drop (Z.to_nat (n - offset)) a ++ take (Z.to_nat (n - offset)) a.

(** [enumerate(l)] *)
Definition enumerate {A} (l : list A) : list (nat * A) :=
  zip (seq 0 (length l)) l.

(** [dict(items)]: a later item overrides an earlier one with the same key. *)
Definition dict `{Countable K} {V} (items : list (K * V)) : gmap K V :=
  fold_left (λ m kv, <[kv.1 := kv.2]> m) items ∅.

(** [d.keys()] and [d.values()]: the same (unspecified) order for both. *)
Definition keys `{Countable K} {V} (d : gmap K V) : list K := (map_to_list d).*1.
Definition values `{Countable K} {V} (d : gmap K V) : list V := (map_to_list d).*2.

(** [d[k]] *)
Definition dict_get `{Countable K} {V} (d : gmap K V) (k : K) : result V :=
  match d !! k with Some v => Ok v | None => Raise KeyError end.

(** ** Vocabulary and encoded corpus (cells 2 and 3) *)

(** [list(set(rawtxt))]: the distinct characters, in the order the set
    yields them.  Python leaves that order open; the proofs below use of
    it only that every member is listed once. *)
Definition letters_of `{Countable char} (rawtxt : list char) : list char :=
  elements (list_to_set rawtxt : gset char).

Definition create_map `{Countable char} (rawtxt : list char) : gmap nat char :=
  let letters := letters_of rawtxt in
  let lettermap := dict (enumerate letters) in
  lettermap.

Fixpoint maparray_loop `{Countable K} {V} (txt : list K) (mapdict : gmap K V)
    : result (list V) :=
  match txt with
  | [] => Ok []
  | letter :: rest =>
      v ← dict_get mapdict letter;
      vs ← maparray_loop rest mapdict;
      Ok (v :: vs)
  end.

Definition maparray `{Countable K} {V} (txt : list K) (mapdict : gmap K V)
    : result (list V) :=
  maparray_loop txt mapdict.

(** ** The torch and numpy interface

    [num] is the element type of a float tensor and of a Python float.  The
    parameters of [myrnn] together with the moment estimates of the Adam
    optimizer are one value of [params]; [adam_step] is
    [optimizer.zero_grad(); cost.backward(); optimizer.step()] for the cost
    accumulated over the chunk [(x, y)] from a zero hidden state. *)

Definition tensor3 (A : Type) : Type := list (list (list A)).

Class Torch : Type := {
  num : Type;
  fzero : num;
  fadd : num → num → num;
  fdiv : num → num → num;
  fexp : num → num;
  of_int : Z → num;
  params : Type;
  np_rng : Type;
  torch_rng : Type;
  nn_Embedding : params → nat → list num;
  nn_GRU : params → list num → tensor3 num → list num * tensor3 num;
  nn_Linear : nat → params → list num → list num;
  nn_CrossEntropyLoss : list num → nat → num;
  tensor_argmax : list num → nat;
  adam_step : params → list nat → list nat → params;
  np_random_randint : Z → Z → np_rng → Z * np_rng;
  torch_multinomial : list num → torch_rng → option (nat * torch_rng)
}.

(** The documented behaviour of the libraries that the proofs rely on: a
    linear layer with [n] output features returns [n] values, the index of
    a maximum and a multinomial sample are positions of the tensor they
    are taken from, and [randint(lo, hi)] lies in [[lo, hi)]. *)
Record TorchLaws (T : Torch) : Prop := {
  linear_length : ∀ n θ v, length (nn_Linear n θ v) = n;
  argmax_lt : ∀ v : list num, v ≠ [] → (tensor_argmax v < length v)%nat;
  randint_range : ∀ lo hi g, lo < hi →
    lo ≤ (np_random_randint lo hi g).1 < hi;
  multinomial_lt : ∀ w g i g',
    torch_multinomial w g = Some (i, g') → (i < length w)%nat
}.

(** ** Program state *)

(** What a run leaves behind for inspection: each call of the cell with its
    input id and incoming hidden state, each multinomial draw with its
    weights and outcome. *)
Inductive event `{Torch} : Type :=
  | EvForward (x : nat) (h : tensor3 num)
  | EvSample (w : list num) (i : nat).

(** One pair of [print] lines of the training loop. *)
Record report `{Torch} (char : Type) : Type := {
  rep_epoch : Z;
  rep_cost : num;
  rep_text : list char
}.
Arguments rep_epoch {_ _} _.
Arguments rep_cost {_ _} _.
Arguments rep_text {_ _} _.

Record state `{Torch} (char : Type) : Type := {
  theta : params;
  np_gen : np_rng;
  torch_gen : torch_rng;
  costs : list num;
  stdout : list (report char);
  trace : list event
}.
Arguments theta {_ _} _.
Arguments np_gen {_ _} _.
Arguments torch_gen {_ _} _.
Arguments costs {_ _} _.
Arguments stdout {_ _} _.
Arguments trace {_ _} _.

(** ** The monad of a run: state passing with exceptions *)

Definition run `{Torch} (char : Type) (A : Type) : Type :=
  state char → result (A * state char).

#[global] Instance run_ret `{Torch} {char} : MRet (run char) :=
  λ A a s, Ok (a, s).
#[global] Instance run_bind `{Torch} {char} : MBind (run char) :=
  λ A B k m s, match m s with
               | Ok (a, s') => k a s'
               | Raise e => Raise e
               end.

Definition lift `{Torch} {char A} (r : result A) : run char A :=
  λ s, match r with Ok a => Ok (a, s) | Raise e => Raise e end.

(** The updates of one component of the state. *)
Definition log_event `{Torch} {char} (e : event) (s : state char) : state char :=
  {| theta := theta s; np_gen := np_gen s; torch_gen := torch_gen s;
     costs := costs s; stdout := stdout s; trace := trace s ++ [e] |}.

Definition set_theta `{Torch} {char} (θ : params) (s : state char) : state char :=
  {| theta := θ; np_gen := np_gen s; torch_gen := torch_gen s;
     costs := costs s; stdout := stdout s; trace := trace s |}.

Definition set_np_gen `{Torch} {char} (g : np_rng) (s : state char) : state char :=
  {| theta := theta s; np_gen := g; torch_gen := torch_gen s;
     costs := costs s; stdout := stdout s; trace := trace s |}.

Definition set_torch_gen `{Torch} {char} (g : torch_rng) (s : state char)
    : state char :=
  {| theta := theta s; np_gen := np_gen s; torch_gen := g;
     costs := costs s; stdout := stdout s; trace := trace s |}.

Definition add_cost `{Torch} {char} (c : num) (s : state char) : state char :=
  {| theta := theta s; np_gen := np_gen s; torch_gen := torch_gen s;
     costs := costs s ++ [c]; stdout := stdout s; trace := trace s |}.

Definition add_report `{Torch} {char} (r : report char) (s : state char)
    : state char :=
  {| theta := theta s; np_gen := np_gen s; torch_gen := torch_gen s;
     costs := costs s; stdout := stdout s ++ [r]; trace := trace s |}.

Definition log `{Torch} {char} (e : event) : run char unit :=
  λ s, Ok (tt, log_event e s).

Definition get_theta `{Torch} {char} : run char params :=
  λ s, Ok (theta s, s).

(** [for x in l: acc = body(x, acc)] *)
Fixpoint for_each `{Torch} {char I S} (body : I → S → run char S)
    (l : list I) (acc : S) : run char S :=
  match l with
  | [] => mret acc
  | i :: l' => acc' ← body i acc; for_each body l' acc'
  end.

(** [for i in range(n)] *)
Definition for_range `{Torch} {char S} (n : Z) (body : Z → S → run char S)
    (acc : S) : run char S :=
  for_each body (seqZ 0 n) acc.

(** ** Randomness: a run, or the distribution of the outcomes *)

(** [np.random.randint(lo, hi)] in a monad [M]. *)
Class NpRandom (M : Type → Type) : Type :=
  randint : Z → Z → M Z.

(** In a run the draw comes from numpy's generator; [lo >= hi] raises
    ValueError. *)
#[global] Instance run_randint `{Torch} {char} : NpRandom (run char) :=
  λ lo hi s,
    if lo <? hi then
      let '(k, g) := np_random_randint lo hi (np_gen s) in
      Ok (k, set_np_gen g s)
    else Raise ValueError.

(** A finite distribution: outcomes with their probabilities. *)
Definition dist (A : Type) : Type := list (result A * Qc).

#[global] Instance dist_ret : MRet dist := λ A a, [(Ok a, 1%Qc)].
#[global] Instance dist_bind : MBind dist :=
  λ A B k m,
    mjoin ((λ rp : result A * Qc,
              match rp.1 with
              | Ok a => (λ rq : result B * Qc, (rq.1, (rp.2 * rq.2)%Qc)) <$> k a
              | Raise e => [(Raise e, rp.2)]
              end) <$> m).

(** numpy documents [randint(lo, hi)] as the discrete uniform distribution
    over [[lo, hi)]. *)
#[global] Instance dist_randint : NpRandom dist :=
  λ lo hi,
    if lo <? hi
    then (λ k, (Ok k, (1 / Qc_of_Z (hi - lo))%Qc)) <$> seqZ lo (hi - lo)
    else [(Raise ValueError, 1%Qc)].

(** ** The model class (cell 4) *)

Record RNN : Set := {
  input_size : nat;
  hidden_size : nat;
  output_size : nat;
  n_layers : nat
}.

(** [torch.zeros(self.n_layers, 1, self.hidden_size)] *)
Definition init_hidden `{Torch} (self : RNN) : tensor3 num :=
  replicate (n_layers self) (replicate 1 (replicate (hidden_size self) fzero)).

(** [RNN.forward]: embedding (which rejects an id outside its table of
    [input_size] rows), one GRU step, linear decoder. *)
Definition forward `{Torch} {char} (self : RNN) (x : nat) (hidden : tensor3 num)
    : run char (list num * tensor3 num) :=
  log (EvForward x hidden);;
  θ ← get_theta;
  if (x <? input_size self)%nat then
    let e := nn_Embedding θ x in
    let '(output, hidden) := nn_GRU θ e hidden in
    let output := nn_Linear (output_size self) θ output in
    mret (output, hidden)
  else lift (Raise (RuntimeError IndexOutOfRange)).

(** [criterion(out, target)] with [criterion = CrossEntropyLoss()]: the
    target must be a class index of [out]. *)
Definition criterion `{Torch} {char} (out : list num) (target : nat)
    : run char num :=
  if (target <? length out)%nat
  then mret (nn_CrossEntropyLoss out target)
  else lift (Raise (RuntimeError IndexOutOfRange)).

(** [torch.multinomial(w, 1)[0]] *)
Definition multinomial `{Torch} {char} (w : list num) : run char nat :=
  λ s, match torch_multinomial w (torch_gen s) with
       | Some (i, g) => Ok (i, log_event (EvSample w i) (set_torch_gen g s))
       | None => Raise (RuntimeError InvalidMultinomial)
       end.

(** [optimizer.zero_grad(); cost.backward(); optimizer.step()] *)
Definition optimizer_update `{Torch} {char} (x y : list nat) : run char unit :=
  λ s, Ok (tt, set_theta (adam_step (theta s) x y) s).

(** [costs.append(c)] *)
Definition costs_append `{Torch} {char} (c : num) : run char unit :=
  λ s, Ok (tt, add_cost c s).

(** The two [print] calls that end an epoch. *)
Definition print `{Torch} {char} (r : report char) : run char unit :=
  λ s, Ok (tt, add_report r s).

(** [a / n] for a float [a] and an integer [n] *)
Definition truediv `{Torch} (a : num) (n : Z) : result num :=
  if n =? 0 then Raise ZeroDivisionError else Ok (fdiv a (of_int n)).

(** ** Specifications of runs *)

(** [outcome P E r]: the run [r] returned a value and a state that satisfy
    [P], or raised an exception that [E] allows. *)
Definition outcome `{Torch} {char A} (P : A → state char → Prop)
    (E : exn → Prop) (r : result (A * state char)) : Prop :=
  match r with
  | Ok (a, s) => P a s
  | Raise e => E e
  end.

(** The value a run returned, without its final state. *)
Definition value_of {A S} (r : result (A * S)) : result A :=
  match r with
  | Ok (a, _) => Ok a
  | Raise e => Raise e
  end.

(** Whether a run returned. *)
Definition returns {A} (r : result A) : bool :=
  match r with
  | Ok _ => true
  | Raise _ => false
  end.

(** The ids fed to the cell before the first multinomial draw of a trace. *)
Fixpoint fed_before_sample `{Torch} (tr : list event) : list nat :=
  match tr with
  | EvForward x _ :: tr' => x :: fed_before_sample tr'
  | _ => []
  end.

(** ** A small concrete instance of the interface

    Integer arithmetic stands in for floating point and a one-line formula
    for each kernel; the generators are counters.  The instance shows that
    [TorchLaws] can be met and lets the program run on concrete inputs. *)

Definition zsum (v : list Z) : Z := foldr Z.add 0 v.

Fixpoint argmax_from (i best : nat) (bv : Z) (v : list Z) : nat :=
  match v with
  | [] => best
  | a :: v' =>
      if bv <? a then argmax_from (S i) i a v' else argmax_from (S i) best bv v'
  end.

Definition demo_argmax (v : list Z) : nat :=
  match v with
  | [] => 0%nat
  | a :: v' => argmax_from 1 0 a v'
  end.

Definition demo_gru (θ : Z) (e : list Z) (h : tensor3 Z) : list Z * tensor3 Z :=
  let h' := fmap (M:=list) (fmap (M:=list) (fmap (M:=list) (λ v, v + zsum e + θ))) h in
  ([zsum e + zsum (concat (concat h'))], h').

Definition demo_multinomial (w : list Z) (g : Z) : option (nat * Z) :=
  match w with
  | [] => None
  | _ :: _ => Some (Z.to_nat (g `mod` len w), g + 1)
  end.

Definition demo : Torch := {|
  num := Z;
  fzero := 0;
  fadd := Z.add;
  fdiv := Z.div;
  fexp := λ z, 2 ^ z;
  of_int := λ n, n;
  params := Z;
  np_rng := Z;
  torch_rng := Z;
  nn_Embedding := λ θ x, [Z.of_nat x + θ];
  nn_GRU := demo_gru;
  nn_Linear := λ n θ v, (λ j : nat, (θ + Z.of_nat j) * (1 + zsum v)) <$> seq 0 n;
  nn_CrossEntropyLoss := λ out target, zsum out - default 0 (out !! target);
  tensor_argmax := demo_argmax;
  adam_step := λ θ x y, θ + 1;
  np_random_randint := λ lo hi g, (lo + g `mod` (hi - lo), g + 1);
  torch_multinomial := demo_multinomial
|}.

Definition demo_state (θ g1 g2 : Z) : @state demo ascii :=
  @Build_state demo ascii θ g1 g2 [] [] [].

(** The characters of a string literal. *)
Definition chars (s : string) : list ascii := String.list_ascii_of_string s.

(** The corpus of the end-to-end scenario, and a start state. *)
Definition abab : list ascii := chars "abab".
Definition s0 : @state demo ascii := demo_state 1 0 0.

(** ** The notebook *)

Section Notebook.
Context `{Countable char} {T : Torch}.

(** The corpus read from the file, lowercased (cell 2), and the
    hyper-parameter [chunk_size] (cell 5). *)
Variable rawtxt : list char.
Variable chunk_size : Z.

Definition num_to_let : gmap nat char := create_map rawtxt.

Definition let_to_num : gmap char nat :=
  dict (zip (values num_to_let) (keys num_to_let)).

Definition nchars : nat := size num_to_let.

(** [X = maparray(rawtxt, let_to_num)]: the call does not raise (lemma
    [maparray_rawtxt]), and [X] is the array it returns. *)
Definition X : list nat := from_result [] (maparray rawtxt let_to_num).

Definition Y : list nat := np_roll X (-1).

(** [myrnn = RNN(nchars, 512, nchars, 1)] *)
Definition myrnn : RNN :=
  {| input_size := nchars; hidden_size := 512; output_size := nchars;
     n_layers := 1 |}.

(** The two slices are slices of torch tensors.  They are modelled by
    [py_slice] and are not empty whenever [0 < chunk_size < len(X)]; what
    the notebook's torch does with an empty tensor slice is outside this
    model. *)
Definition random_chunk `{MBind M, MRet M, NpRandom M} (chunk_size : Z)
    : M (list nat * list nat)%type :=
  k ← randint 0 (len X - chunk_size);
  mret (py_slice X k (k + chunk_size), py_slice Y k (k + chunk_size)).

(** The body of [for i in range(chunk_size)], on the locals [h], [cost]
    and [generated]. *)
Definition train_step (x y : list nat) (i : Z)
    (loc : tensor3 num * num * list char)
    : run char (tensor3 num * num * list char) :=
  let '(h, cost, generated) := loc in
  xi ← lift (getitem x i);
  '(out, h) ← forward myrnn xi h;
  let outl := tensor_argmax out in
  letter ← lift (dict_get num_to_let outl);
  let generated := generated ++ [letter] in
  yi ← lift (getitem y i);
  c ← criterion out yi;
  let cost := fadd cost c in
  mret (h, cost, generated).

(** One chunk, from [h = myrnn.init_hidden()] to [optimizer.step()]: the
    statements of the body of [for _ in range(len(X)//chunk_size)] but the
    last.  It returns the chunk's [cost] and the locals [generated], [h]. *)
Definition run_chunk (generated : list char)
    : run char (num * list char * tensor3 num) :=
  let h := init_hidden myrnn in
  let cost := fzero in
  '(x, y) ← random_chunk chunk_size;
  '(h, cost, generated) ←
    for_range chunk_size (train_step x y) (h, cost, generated);
  optimizer_update x y;;
  mret (cost, generated, h).

(** The body of [for _ in range(len(X)//chunk_size)], on the locals
    [totcost], [generated] and [h]; [h] is unbound ([None]) before the
    first chunk. *)
Definition train_chunk (loc : num * list char * option (tensor3 num))
    : run char (num * list char * option (tensor3 num)) :=
  let '(totcost, generated, _) := loc in
  '(cost, generated, h) ← run_chunk generated;
  let totcost := fadd totcost cost in
  mret (totcost, generated, Some h).

(** The body of [for epoch in range(no_epochs)], on the local [h]. *)
Definition train_epoch (epoch : Z) (h : option (tensor3 num))
    : run char (option (tensor3 num)) :=
  let totcost := fzero in
  let generated := [] in
  n ← lift (floordiv (len X) chunk_size);
  '(totcost, generated, h) ←
    for_range n (λ _, train_chunk) (totcost, generated, h);
  n ← lift (floordiv (len X) chunk_size);
  totcost ← lift (truediv totcost n);
  costs_append totcost;;
  print {| rep_epoch := epoch + 1; rep_cost := totcost;
           rep_text := py_slice generated 0 750 |};;
  mret h.

Definition train (no_epochs : Z) : run char unit :=
  for_range no_epochs train_epoch None;;
  mret tt.

(** The body of the priming loop of [generate]. *)
Definition prime_step (x : list nat) (i : Z) (h : tensor3 num)
    : run char (tensor3 num) :=
  xi ← lift (getitem x i);
  '(out, h) ← forward myrnn xi h;
  mret h.

(** The body of the sampling loop of [generate], on the locals [x], [h]
    and [generated]. *)
Definition sample_step (temperature : num) (i : Z)
    (loc : nat * tensor3 num * list char)
    : run char (nat * tensor3 num * list char) :=
  let '(x, h, generated) := loc in
  '(out, h) ← forward myrnn x h;
  let out_dist := (λ v, fexp (fdiv v temperature)) <$> out in
  sample ← multinomial out_dist;
  pred_char ← lift (dict_get num_to_let sample);
  let generated := generated ++ [pred_char] in
  let x := sample in
  mret (x, h, generated).

Definition generate (prime_str : list char) (str_len : Z) (temperature : num)
    : run char (list char) :=
  let generated := prime_str in
  let h := init_hidden myrnn in
  prime_str ← lift (maparray prime_str let_to_num);
  let x := prime_str in
  h ← for_range (len x) (prime_step x) h;
  x ← lift (getitem x (-1));
  '(x, h, generated) ← for_range str_len (sample_step temperature) (x, h, generated);
  mret generated.


(** ** Specifications of the notebook's runs *)

(** [chunks_run generated s losses generated' s']: from the state [s], the
    chunks of [losses] ran one after the other, each by its own [run_chunk]
    (hence its own draw of [random_chunk]), with these losses. *)
Inductive chunks_run
    : list char → state char → list num → list char → state char → Prop :=
  | chunks_run_nil generated s : chunks_run generated s [] generated s
  | chunks_run_cons generated s cost generated1 h1 s1 losses generated2 s2 :
      run_chunk generated s = Ok ((cost, generated1, h1), s1) →
      chunks_run generated1 s1 losses generated2 s2 →
      chunks_run generated s (cost :: losses) generated2 s2.

(** [sample_trace x0 tr ids x]: the trace [tr] of a sampling loop entered
    with current id [x0]: each iteration feeds the current id to the cell
    and draws the next one, [ids] are the draws and [x] the current id at
    the end.  Every draw is taken from [nchars] weights and is an id. *)
Inductive sample_trace : nat → list event → list nat → nat → Prop :=
  | sample_trace_nil x0 : sample_trace x0 [] [] x0
  | sample_trace_snoc x0 tr ids x h w i :
      sample_trace x0 tr ids x →
      length w = nchars →
      (i < nchars)%nat →
      sample_trace x0 (tr ++ [EvForward x h; EvSample w i]) (ids ++ [i]) i.

(** What [generate] leaves when it returns [str] in state [s'] from [s]:
    the priming calls, one per character of the prime and the first of
    them on a zero hidden state, then the sampling loop from the last
    character of the prime; [str] is the prime followed by the decoded
    draws. *)
Definition generate_post (prime_str : list char) (str_len : Z)
    (s : state char) (str : list char) (s' : state char) : Prop :=
  ∃ prime x0 tr_prime tr_sample ids sampled x,
    maparray prime_str let_to_num = Ok prime ∧
    last prime = Some x0 ∧
    trace s' = trace s ++ tr_prime ++ tr_sample ∧
    Forall2 (λ e x, ∃ h, e = EvForward x h) tr_prime prime ∧
    (∃ x1 rest, tr_prime = EvForward x1 (init_hidden myrnn) :: rest) ∧
    sample_trace x0 tr_sample ids x ∧
    length ids = Z.to_nat str_len ∧
    Forall2 (λ i c, num_to_let !! i = Some c) ids sampled ∧
    str = prime_str ++ sampled.

(** ** Further observations of a run *)

(** The ids fed to the cell over a whole trace, and the ids drawn. *)
Fixpoint cell_inputs (tr : list event) : list nat :=
  match tr with
  | [] => []
  | EvForward x _ :: tr' => x :: cell_inputs tr'
  | EvSample _ _ :: tr' => cell_inputs tr'
  end.

Fixpoint draws (tr : list event) : list nat :=
  match tr with
  | [] => []
  | EvForward _ _ :: tr' => draws tr'
  | EvSample _ i :: tr' => i :: draws tr'
  end.

(** [read_only s s']: from [s] to [s'] the parameters, numpy's generator,
    [costs] and the printed reports are the same. *)
Definition read_only (s s' : state char) : Prop :=
  theta s' = theta s ∧ np_gen s' = np_gen s ∧
  costs s' = costs s ∧ stdout s' = stdout s.

(** The parameters after one optimizer step per offset, each on the chunk
    of [X] and [Y] at that offset. *)
Definition adam_steps (offsets : list Z) (θ : params) : params :=
  fold_left (λ θ k, adam_step θ (py_slice X k (k + chunk_size))
                                (py_slice Y k (k + chunk_size)))
            offsets θ.

(** The offsets that [n] calls of [random_chunk], one after the other, draw
    from numpy's generator in state [g], and the state they leave: each is
    [randint(0, len(X) - chunk_size)] on the state the call before it
    left. *)
Fixpoint drawn_offsets (n : nat) (g : np_rng) : list Z * np_rng :=
  match n with
  | O => ([], g)
  | S n' =>
      let '(k, g') := np_random_randint 0 (len X - chunk_size) g in
      let '(ks, g'') := drawn_offsets n' g' in
      (k :: ks, g'')
  end.

(** ** Dictionaries *)

Lemma dict_fold_lookup `{Countable K} {V} (items : list (K * V)) (m : gmap K V) k v :
  NoDup (items.*1) →
  fold_left (λ m kv, <[kv.1 := kv.2]> m) items m !! k = Some v ↔
  (k, v) ∈ items ∨ ((k ∉ items.*1) ∧ m !! k = Some v).
Proof.
  revert m. induction items as [|[k' v'] items IH]; intros m Hnd; simpl.
  - split; [intros ?; right; split; [apply not_elem_of_nil | done] | ].
    intros [Hin | [_ ?]]; [by apply elem_of_nil in Hin | done].
  - apply NoDup_cons in Hnd as [Hk' Hnd]. rewrite IH by done. split.
    + intros [Hin | [Hnin Hl]]; [left; by right | ].
      destruct (decide (k' = k)) as [-> | Hne].
      * rewrite lookup_insert_eq in Hl. injection Hl as ->. left. by left.
      * rewrite lookup_insert_ne in Hl by done. right. split; [ | done].
        rewrite not_elem_of_cons. done.
    + intros [Hin | [Hnin Hl]].
      * apply elem_of_cons in Hin as [Heq | Hin]; [ | by left].
        injection Heq as -> ->. right. split; [done | apply lookup_insert_eq].
      * apply not_elem_of_cons in Hnin as [Hne Hnin]. right. split; [done | ].
        by rewrite lookup_insert_ne.
Qed.

Lemma dict_lookup `{Countable K} {V} (items : list (K * V)) k v :
  NoDup (items.*1) → dict items !! k = Some v ↔ (k, v) ∈ items.
Proof.
  intros Hnd. unfold dict. rewrite dict_fold_lookup by done. split.
  - intros [? | [_ Hl]]; [done | by rewrite lookup_empty in Hl].
  - by left.
Qed.

Lemma enumerate_fst {A} (l : list A) : (enumerate l).*1 = seq 0 (length l).
Proof. unfold enumerate. apply fst_zip. by rewrite length_seq. Qed.

Lemma elem_of_enumerate {A} (l : list A) i a :
  (i, a) ∈ enumerate l ↔ l !! i = Some a.
Proof.
  unfold enumerate. rewrite list_elem_of_lookup. split.
  - intros [j Hj]. apply lookup_zip_with_Some in Hj as (x & y & Heq & Hx & Hy).
    injection Heq as -> ->. apply lookup_seq in Hx as [-> _]. done.
  - intros Hi. exists i. apply lookup_zip_with_Some. exists i, a.
    split_and!; [done | | done]. apply lookup_seq. split; [done | ].
    by apply lookup_lt_Some in Hi.
Qed.

Lemma dict_enumerate_lookup {A} (l : list A) i : dict (enumerate l) !! i = l !! i.
Proof.
  apply option_eq. intros a. rewrite dict_lookup.
  - apply elem_of_enumerate.
  - rewrite enumerate_fst. apply NoDup_seq.
Qed.

Lemma zip_snd_fst {A B} (l : list (A * B)) : zip (l.*2) (l.*1) = prod_swap <$> l.
Proof. induction l as [|[a b] l IH]; [done | ]. cbn. f_equal. apply IH. Qed.

(** ** The vocabulary *)

Lemma letters_NoDup : NoDup (letters_of rawtxt).
Proof. apply NoDup_elements. Qed.

Lemma elem_of_letters c : c ∈ letters_of rawtxt ↔ c ∈ rawtxt.
Proof. unfold letters_of. by rewrite elem_of_elements, elem_of_list_to_set. Qed.

Lemma num_to_let_lookup i : num_to_let !! i = letters_of rawtxt !! i.
Proof. apply dict_enumerate_lookup. Qed.

Lemma nchars_letters : nchars = length (letters_of rawtxt).
Proof.
  unfold nchars. rewrite <- size_dom.
  replace (dom num_to_let) with (set_seq 0 (length (letters_of rawtxt)) : gset nat).
  { apply size_set_seq. }
  apply set_eq. intros i. rewrite elem_of_set_seq, elem_of_dom, num_to_let_lookup.
  rewrite lookup_lt_is_Some. lia.
Qed.

Lemma num_to_let_is_Some i : is_Some (num_to_let !! i) ↔ (i < nchars)%nat.
Proof. by rewrite num_to_let_lookup, nchars_letters, lookup_lt_is_Some. Qed.

Lemma num_to_let_inj i j c :
  num_to_let !! i = Some c → num_to_let !! j = Some c → i = j.
Proof.
  rewrite !num_to_let_lookup. intros Hi Hj.
  by eapply NoDup_lookup; [apply letters_NoDup | | ].
Qed.

Lemma let_to_num_lookup c i :
  let_to_num !! c = Some i ↔ num_to_let !! i = Some c.
Proof.
  unfold let_to_num, values, keys. rewrite zip_snd_fst. rewrite dict_lookup.
  - rewrite list_elem_of_fmap. split.
    + intros [[j d] [Heq Hin]]. injection Heq as -> ->.
      by apply elem_of_map_to_list in Hin.
    + intros Hi. exists (i, c). split; [done | by apply elem_of_map_to_list].
  - rewrite <- list_fmap_compose. apply NoDup_fmap_2_strong; [ | apply NoDup_map_to_list].
    intros [i1 c1] [i2 c2] H1 H2; simpl. intros <-.
    apply elem_of_map_to_list in H1, H2. f_equal. by eapply num_to_let_inj.
Qed.

Lemma let_to_num_is_Some c : is_Some (let_to_num !! c) ↔ c ∈ rawtxt.
Proof.
  rewrite <- elem_of_letters, list_elem_of_lookup. split.
  - intros [i Hi]. exists i. by rewrite <- num_to_let_lookup, <- let_to_num_lookup.
  - intros [i Hi]. exists i. by rewrite let_to_num_lookup, num_to_let_lookup.
Qed.

(** ** Sequences *)

Lemma py_slice_inside {A} (l : list A) (k n : Z) :
  0 ≤ k → 0 ≤ n → k + n ≤ len l →
  py_slice l k (k + n) = take (Z.to_nat n) (drop (Z.to_nat k) l).
Proof.
  intros Hk Hn Hle. unfold py_slice, slice_bound.
  destruct (Z.ltb_spec k 0); [lia | ]. destruct (Z.ltb_spec (k + n) 0); [lia | ].
  rewrite !Z.min_l by lia. do 2 f_equal. lia.
Qed.

Lemma py_slice_length {A} (l : list A) (k n : Z) :
  0 ≤ k → 0 ≤ n → k + n ≤ len l → length (py_slice l k (k + n)) = Z.to_nat n.
Proof.
  intros Hk Hn Hle. rewrite py_slice_inside by done.
  rewrite length_take, length_drop. unfold len in Hle. lia.
Qed.

Lemma py_slice_lookup {A} (l : list A) (k n : Z) (i : nat) :
  0 ≤ k → 0 ≤ n → k + n ≤ len l → (i < Z.to_nat n)%nat →
  py_slice l k (k + n) !! i = l !! (Z.to_nat k + i)%nat.
Proof.
  intros Hk Hn Hle Hi. rewrite py_slice_inside by done.
  rewrite lookup_take_lt by done. apply lookup_drop.
Qed.

Lemma py_slice_sublist {A} (l : list A) (lo hi : Z) a :
  a ∈ py_slice l lo hi → a ∈ l.
Proof.
  unfold py_slice. intros Hin.
  apply list_elem_of_lookup in Hin as [i Hi].
  apply lookup_take_Some in Hi as [Hi _]. rewrite lookup_drop in Hi.
  by eapply list_elem_of_lookup_2.
Qed.

Lemma getitem_inside {A} (l : list A) (i : Z) :
  0 ≤ i < len l → ∃ a, getitem l i = Ok a ∧ l !! Z.to_nat i = Some a.
Proof.
  intros Hi. unfold getitem. destruct (Z.ltb_spec i 0); [lia | ].
  destruct (Z.leb_spec 0 i); [ | lia]. destruct (Z.ltb_spec i (len l)); [ | lia].
  simpl. destruct (l !! Z.to_nat i) as [a|] eqn:Ha; [by exists a | ].
  apply lookup_ge_None in Ha. unfold len in Hi. lia.
Qed.

Lemma getitem_last {A} (l : list A) (a : A) :
  last l = Some a → getitem l (-1) = Ok a.
Proof.
  intros Hl. unfold getitem. rewrite last_lookup in Hl.
  assert (length l ≠ 0%nat) as Hne by (intros E; destruct l; done).
  destruct (Z.ltb_spec (-1) 0); [ | lia]. unfold len.
  destruct (Z.leb_spec 0 (-1 + Z.of_nat (length l))); [ | lia].
  destruct (Z.ltb_spec (-1 + Z.of_nat (length l)) (Z.of_nat (length l))); [ | lia].
  simpl. replace (Z.to_nat (-1 + Z.of_nat (length l))) with (pred (length l)) by lia.
  by rewrite Hl.
Qed.

Lemma np_roll_length {A} (a : list A) (shift : Z) :
  length (np_roll a shift) = length a.
Proof.
  unfold np_roll. destruct (_ =? 0); [done | ].
  rewrite length_app, length_drop, length_take. lia.
Qed.

Lemma np_roll_elem_of {A} (a : list A) (shift : Z) x :
  x ∈ np_roll a shift ↔ x ∈ a.
Proof.
  unfold np_roll. destruct (_ =? 0); [done | ].
  rewrite elem_of_app, (comm (∨)), <- elem_of_app. by rewrite take_drop.
Qed.

Lemma np_roll_next {A} (a : list A) (i : nat) :
  (i < length a)%nat →
  np_roll a (-1) !! i = a !! ((i + 1) mod length a)%nat.
Proof.
  intros Hi. unfold np_roll, len.
  destruct (Z.eqb_spec (Z.of_nat (length a)) 0) as [E | E]; [lia | ].
  cbv iota.
  assert ((-1) `mod` Z.of_nat (length a) = Z.of_nat (length a) - 1) as ->.
  { symmetry. apply (Z.mod_unique_pos _ _ (-1)); lia. }
  destruct (Z.eqb_spec (Z.of_nat (length a) - 1) 0) as [E1 | E1].
  - assert (length a = 1%nat) as Hl by lia. rewrite Hl.
    replace i with 0%nat by lia. done.
  - replace (Z.to_nat (Z.of_nat (length a) - (Z.of_nat (length a) - 1))) with 1%nat by lia.
    destruct (decide (i + 1 < length a)%nat) as [Hlt | Hge].
    + rewrite lookup_app_l by (rewrite length_drop; lia).
      rewrite lookup_drop, Nat.mod_small by done. f_equal. lia.
    + assert (i + 1 = length a)%nat as Heq by lia.
      rewrite lookup_app_r by (rewrite length_drop; lia).
      rewrite length_drop, Heq, Nat.Div0.mod_same.
      replace (i - (length a - 1))%nat with 0%nat by lia.
      destruct a; [simpl in Hi; lia | done].
Qed.

(** ** The encoded corpus *)

Lemma maparray_Forall2 `{Countable K} {V} (txt : list K) (d : gmap K V) ids :
  maparray txt d = Ok ids ↔ Forall2 (λ c i, d !! c = Some i) txt ids.
Proof.
  unfold maparray. revert ids. induction txt as [|c txt IH]; intros ids; simpl.
  - split; [intros [= <-]; constructor | by intros ->%Forall2_nil_inv_l].
  - unfold mbind, result_mbind, result_bind, dict_get.
    destruct (d !! c) as [v|] eqn:Hc.
    + destruct (maparray_loop txt d) as [vs|e] eqn:Hr.
      * split.
        -- intros [= <-]. constructor; [done | by apply IH].
        -- intros (i & ids' & Hi & Hall & ->)%Forall2_cons_inv_l.
           apply IH in Hall. by simplify_eq.
      * split; [done | ].
        intros (i & ids' & Hi & Hall & ->)%Forall2_cons_inv_l.
        apply IH in Hall. done.
    + split; [done | ].
      intros (i & ids' & Hi & Hall & ->)%Forall2_cons_inv_l. congruence.
Qed.

Lemma maparray_in_vocab (txt : list char) :
  (∀ c, c ∈ txt → c ∈ rawtxt) →
  ∃ ids, maparray txt let_to_num = Ok ids ∧
         Forall2 (λ c i, num_to_let !! i = Some c) txt ids.
Proof.
  intros Hin.
  assert (∃ ids, Forall2 (λ c i, let_to_num !! c = Some i) txt ids) as [ids Hids].
  { induction txt as [|c txt IH]; [by exists [] | ].
    destruct IH as [ids Hids]; [intros; apply Hin; by right | ].
    destruct (proj2 (let_to_num_is_Some c)) as [i Hi]; [apply Hin; by left | ].
    exists (i :: ids). by constructor. }
  exists ids. split; [by apply maparray_Forall2 | ].
  eapply Forall2_impl; [done | ]. intros c i. by rewrite let_to_num_lookup.
Qed.

Lemma maparray_rawtxt :
  maparray rawtxt let_to_num = Ok X ∧
  Forall2 (λ c i, num_to_let !! i = Some c) rawtxt X.
Proof.
  destruct (maparray_in_vocab rawtxt) as (ids & Hm & Hall); [done | ].
  unfold X. rewrite Hm. done.
Qed.

Lemma X_length : length X = length rawtxt.
Proof. destruct maparray_rawtxt as [_ Hall]. symmetry. by eapply Forall2_length. Qed.

Lemma X_lt x : x ∈ X → (x < nchars)%nat.
Proof.
  destruct maparray_rawtxt as [_ Hall]. intros Hx.
  apply list_elem_of_lookup in Hx as [i Hi].
  destruct (Forall2_lookup_r _ _ _ _ _ Hall Hi) as (c & _ & Hc).
  apply num_to_let_is_Some. by exists c.
Qed.

Lemma Y_length : length Y = length X.
Proof. apply np_roll_length. Qed.

Lemma Y_lt y : y ∈ Y → (y < nchars)%nat.
Proof. unfold Y. rewrite np_roll_elem_of. apply X_lt. Qed.

(** ** Reasoning about runs *)

Lemma run_bind_unfold {A B} (m : run char A) (k : A → run char B) s :
  (m ≫= k) s = match m s with Ok (a, s') => k a s' | Raise e => Raise e end.
Proof. reflexivity. Qed.

Lemma outcome_ret {A} (P : A → state char → Prop) E a s :
  P a s → outcome P E ((mret a : run char A) s).
Proof. done. Qed.

Lemma outcome_bind {A B} (P : A → state char → Prop)
    (Q : B → state char → Prop) E (m : run char A) (k : A → run char B) s :
  outcome P E (m s) →
  (∀ a s1, P a s1 → outcome Q E (k a s1)) →
  outcome Q E ((m ≫= k) s).
Proof.
  intros Hm Hk. rewrite run_bind_unfold.
  destruct (m s) as [[a s1]|e]; simpl in *; [by apply Hk | done].
Qed.

Lemma outcome_bind_lift {A B} (Q : B → state char → Prop) E (r : result A)
    (k : A → run char B) a s :
  r = Ok a → outcome Q E (k a s) → outcome Q E ((lift r ≫= k) s).
Proof. intros -> Hk. by rewrite run_bind_unfold. Qed.

Lemma outcome_impl {A} (P Q : A → state char → Prop) (E E' : exn → Prop) r :
  outcome P E r →
  (∀ a s, P a s → Q a s) → (∀ e, E e → E' e) →
  outcome Q E' r.
Proof. destruct r as [[a s]|e]; simpl; eauto. Qed.

Lemma outcome_total {A} (P : A → state char → Prop) r :
  outcome P (λ _, False) r → ∃ a s, r = Ok (a, s) ∧ P a s.
Proof. destruct r as [[a s]|e]; simpl; [eauto | done]. Qed.

Lemma outcome_Ok {A} (P : A → state char → Prop) E r a s :
  outcome P E r → r = Ok (a, s) → P a s.
Proof. by intros Hr ->. Qed.

Lemma for_each_outcome {I L} (Inv : nat → L → state char → Prop) E
    (body : I → L → run char L) (l : list I) acc s :
  Inv 0%nat acc s →
  (∀ j i a st, l !! j = Some i → Inv j a st → outcome (Inv (S j)) E (body i a st)) →
  outcome (Inv (length l)) E (for_each body l acc s).
Proof.
  revert Inv acc s. induction l as [|i l IH]; intros Inv acc s H0 Hstep; simpl.
  - done.
  - eapply outcome_bind.
    + apply (Hstep 0%nat i); done.
    + intros a s1 H1. apply (IH (λ j, Inv (S j))); [done | ].
      intros j i' a' st Hj. apply (Hstep (S j)). done.
Qed.

Lemma for_range_outcome {L} (Inv : nat → L → state char → Prop) E
    (n : Z) (body : Z → L → run char L) acc s :
  Inv 0%nat acc s →
  (∀ j a st, Z.of_nat j < n → Inv j a st →
     outcome (Inv (S j)) E (body (Z.of_nat j) a st)) →
  outcome (Inv (Z.to_nat n)) E (for_range n body acc s).
Proof.
  intros H0 Hstep. unfold for_range. rewrite <- (length_seqZ 0 n).
  apply for_each_outcome; [done | ].
  intros j i a st Hj. apply lookup_seqZ in Hj as [-> Hlt].
  rewrite Z.add_0_l. by apply Hstep.
Qed.

(** ** The primitives of a run *)

Section Primitives.
Hypothesis laws : TorchLaws T.

Lemma forward_outcome (E : exn → Prop) (self : RNN) x h (s : state char) :
  (x < input_size self)%nat →
  outcome (λ r s', length r.1 = output_size self ∧
                   s' = log_event (EvForward x h) s)
          E (forward self x h s).
Proof.
  intros Hx. unfold forward.
  rewrite run_bind_unfold. simpl. rewrite run_bind_unfold. simpl.
  apply Nat.ltb_lt in Hx. rewrite Hx.
  destruct (nn_GRU _ _ _) as [output hidden]. simpl.
  split; [apply (linear_length T laws) | done].
Qed.

Lemma multinomial_outcome (E : exn → Prop) (w : list num) (s : state char) :
  (torch_multinomial w (torch_gen s) = None → E (RuntimeError InvalidMultinomial)) →
  outcome (λ i s', (i < length w)%nat ∧
                   ∃ g, s' = log_event (EvSample w i) (set_torch_gen g s))
          E (multinomial w s).
Proof.
  intros HE. unfold multinomial.
  destruct (torch_multinomial w (torch_gen s)) as [[i g]|] eqn:Hm; simpl.
  - split; [by eapply (multinomial_lt T laws) | by exists g].
  - by apply HE.
Qed.

Lemma randint_outcome (E : exn → Prop) lo hi (s : state char) :
  lo < hi →
  outcome (λ k s', lo ≤ k < hi ∧
                   k = (np_random_randint lo hi (np_gen s)).1 ∧
                   s' = set_np_gen (np_random_randint lo hi (np_gen s)).2 s)
          E (randint (M:=run char) lo hi s).
Proof.
  intros Hlt. unfold randint, run_randint.
  destruct (Z.ltb_spec lo hi); [ | lia].
  pose proof (randint_range T laws lo hi (np_gen s) Hlt) as Hr.
  destruct (np_random_randint lo hi (np_gen s)) as [k g]. simpl in *. done.
Qed.

Lemma criterion_outcome (E : exn → Prop) out target (s : state char) :
  (target < length out)%nat →
  outcome (λ c s', c = nn_CrossEntropyLoss out target ∧ s' = s) E
          (criterion out target s).
Proof.
  intros Ht. unfold criterion. apply Nat.ltb_lt in Ht. rewrite Ht. done.
Qed.

(** ** Traces *)

Lemma fed_before_sample_length (tr : list event) :
  (length (fed_before_sample tr) ≤ length tr)%nat.
Proof.
  induction tr as [|[x h|w i] tr IH]; simpl; lia.
Qed.

Lemma fed_before_sample_snoc (tr : list event) x h :
  length (fed_before_sample tr) = length tr →
  fed_before_sample (tr ++ [EvForward x h]) = fed_before_sample tr ++ [x].
Proof.
  induction tr as [|[x' h'|w i] tr IH]; simpl; intros Hlen.
  - done.
  - f_equal. apply IH. lia.
  - done.
Qed.

Lemma fed_before_sample_app (tr1 tr2 : list event) :
  length (fed_before_sample tr1) = length tr1 →
  fed_before_sample (tr1 ++ tr2) = fed_before_sample tr1 ++ fed_before_sample tr2.
Proof.
  induction tr1 as [|[x' h'|w i] tr1 IH]; simpl; intros Hlen.
  - done.
  - f_equal. apply IH. lia.
  - pose proof (fed_before_sample_length tr1). lia.
Qed.

Lemma fed_before_sample_Forall2 (tr : list event) (ids : list nat) :
  Forall2 (λ e x, ∃ h, e = EvForward x h) tr ids → fed_before_sample tr = ids.
Proof.
  induction 1 as [|e x tr ids [h ->] _ IH]; simpl; [done | by rewrite IH].
Qed.

(** ** The training loop *)

Lemma train_step_outcome (E : exn → Prop) (x y : list nat) (j : nat)
    h cost generated (s : state char) :
  (j < length x)%nat → length y = length x →
  (∀ a, a ∈ x → (a < nchars)%nat) → (∀ a, a ∈ y → (a < nchars)%nat) →
  outcome (λ r s', ∃ xi c letter,
             x !! j = Some xi ∧ s' = log_event (EvForward xi h) s ∧
             r.1.2 = fadd cost c ∧ r.2 = generated ++ [letter])
          E (train_step x y (Z.of_nat j) (h, cost, generated) s).
Proof.
  intros Hj Hlen Hx Hy. unfold train_step.
  destruct (getitem_inside x (Z.of_nat j)) as (xi & Hgx & Hxi); [unfold len; lia | ].
  destruct (getitem_inside y (Z.of_nat j)) as (yi & Hgy & Hyi); [unfold len; lia | ].
  rewrite Nat2Z.id in Hxi, Hyi.
  assert (xi < nchars)%nat as Hxi_lt by (apply Hx; by eapply list_elem_of_lookup_2).
  assert (yi < nchars)%nat as Hyi_lt by (apply Hy; by eapply list_elem_of_lookup_2).
  eapply outcome_bind_lift; [exact Hgx | ].
  eapply outcome_bind; [by apply forward_outcome | ].
  intros [out h'] s1 [Hout ->]. simpl in Hout.
  assert (tensor_argmax out < nchars)%nat as Harg.
  { rewrite <- Hout. apply (argmax_lt T laws). intros ->. simpl in Hout. lia. }
  destruct (proj2 (num_to_let_is_Some _) Harg) as [letter Hletter].
  eapply outcome_bind_lift; [unfold dict_get; by rewrite Hletter | ].
  eapply outcome_bind_lift; [exact Hgy | ].
  eapply outcome_bind; [apply criterion_outcome; by rewrite Hout | ].
  intros c ? [-> ->]. apply outcome_ret. simpl. eauto 10.
Qed.

Section Chunks.
Hypothesis chunk_size_range : 0 < chunk_size < len X.

Lemma run_chunk_outcome (E : exn → Prop) generated (s : state char) :
  outcome (λ r s', ∃ k x0 rest,
             k = (np_random_randint 0 (len X - chunk_size) (np_gen s)).1 ∧
             0 ≤ k < len X - chunk_size ∧
             trace s' = trace s ++ EvForward x0 (init_hidden myrnn) :: rest ∧
             length (EvForward x0 (init_hidden myrnn) :: rest) = Z.to_nat chunk_size ∧
             fed_before_sample (EvForward x0 (init_hidden myrnn) :: rest)
               = py_slice X k (k + chunk_size) ∧
             costs s' = costs s ∧ stdout s' = stdout s)
          E (run_chunk generated s).
Proof.
  unfold run_chunk, random_chunk.
  eapply outcome_bind.
  { eapply outcome_bind; [apply (randint_outcome E); lia | ].
    intros k s1 (Hk & Hdraw & ->).
    apply (outcome_ret (λ r s1, ∃ k, r = (py_slice X k (k + chunk_size),
                                          py_slice Y k (k + chunk_size)) ∧
               k = (np_random_randint 0 (len X - chunk_size) (np_gen s)).1 ∧
               0 ≤ k < len X - chunk_size ∧
               s1 = set_np_gen (np_random_randint 0 (len X - chunk_size) (np_gen s)).2 s)).
    by exists k. }
  intros [x y] s1 (k & [= -> ->] & Hdraw & Hk & ->).
  set (x := py_slice X k (k + chunk_size)).
  set (y := py_slice Y k (k + chunk_size)).
  set (s1 := set_np_gen _ s).
  assert (length x = Z.to_nat chunk_size) as Hlx by (apply py_slice_length; lia).
  assert (length y = Z.to_nat chunk_size) as Hly.
  { apply py_slice_length; [lia | lia | ]. unfold len. rewrite Y_length.
    fold (len X). lia. }
  assert (∀ a, a ∈ x → (a < nchars)%nat) as Hx.
  { intros a Ha. apply X_lt. by eapply py_slice_sublist. }
  assert (∀ a, a ∈ y → (a < nchars)%nat) as Hy.
  { intros a Ha. apply Y_lt. by eapply py_slice_sublist. }
  eapply outcome_bind.
  { apply (for_range_outcome
      (λ j (loc : tensor3 num * num * list char) st, ∃ tr,
         trace st = trace s ++ tr ∧ length tr = j ∧
         fed_before_sample tr = take j x ∧
         (∀ e, head tr = Some e → ∃ x0, e = EvForward x0 (init_hidden myrnn)) ∧
         (j = 0%nat → loc.1.1 = init_hidden myrnn) ∧
         costs st = costs s ∧ stdout st = stdout s)).
    - exists []. rewrite app_nil_r. split_and!; done.
    - intros j [[h cost] gen] st Hj (tr & Htr & Hlen & Hfed & Hhead & Hh0 & Hc & Hs).
      eapply outcome_impl; [apply train_step_outcome; try done; lia | | done].
      intros [[h' cost'] gen'] st' (xi & c & letter & Hxi & -> & _ & _).
      exists (tr ++ [EvForward xi h]). simpl. split_and!.
      + by rewrite Htr, <- app_assoc.
      + rewrite length_app. simpl. lia.
      + rewrite fed_before_sample_snoc.
        * rewrite Hfed. symmetry. by apply take_S_r.
        * rewrite Hfed, length_take. lia.
      + intros e He. destruct tr as [|e0 tr]; simpl in He.
        * injection He as <-. exists xi. simpl in Hlen, Hh0. by rewrite Hh0.
        * apply Hhead. done.
      + done.
      + done.
      + done. }
  intros [[h cost] gen] st (tr & Htr & Hlen & Hfed & Hhead & _ & Hc & Hs).
  eapply outcome_bind; [apply (outcome_ret (λ _ s', s' = set_theta (adam_step (theta st) x y) st)); done | ].
  intros _ ? ->. apply outcome_ret. simpl.
  destruct tr as [|e rest]; [simpl in Hlen; lia | ].
  destruct (Hhead e) as [x0 ->]; [done | ].
  rewrite <- Hlx, firstn_all in Hfed.
  exists k, x0, rest. split_and!; try done; lia.
Qed.

Lemma run_chunk_total generated (s : state char) :
  ∃ cost generated' h s', run_chunk generated s = Ok ((cost, generated', h), s').
Proof.
  destruct (outcome_total _ _ (run_chunk_outcome (λ _, False) generated s))
    as ([[c g] h] & s' & Hr & _). eauto.
Qed.

Lemma chunks_run_snoc generated s losses generated1 s1 cost generated2 h2 s2 :
  chunks_run generated s losses generated1 s1 →
  run_chunk generated1 s1 = Ok ((cost, generated2, h2), s2) →
  chunks_run generated s (losses ++ [cost]) generated2 s2.
Proof.
  induction 1 as [|? ? ? ? ? ? ? ? ? Hr _ IH]; intros Hlast; simpl.
  - eapply chunks_run_cons; [done | constructor].
  - eapply chunks_run_cons; [done | by apply IH].
Qed.

Lemma chunks_run_trace generated s losses generated' s' :
  chunks_run generated s losses generated' s' →
  ∃ tr offsets,
    trace s' = trace s ++ tr ∧
    length tr = (length losses * Z.to_nat chunk_size)%nat ∧
    (∀ j, (j < length losses)%nat →
       ∃ x, tr !! (j * Z.to_nat chunk_size)%nat
            = Some (EvForward x (init_hidden myrnn))) ∧
    length offsets = length losses ∧
    Forall (λ k, 0 ≤ k < len X - chunk_size) offsets ∧
    fed_before_sample tr
      = concat ((λ k, py_slice X k (k + chunk_size)) <$> offsets) ∧
    length (fed_before_sample tr) = length tr ∧
    costs s' = costs s ∧ stdout s' = stdout s.
Proof.
  induction 1 as [|g s c g1 h1 s1 losses g2 s2 Hr _ IH].
  - exists [], []. rewrite app_nil_r. split_and!; try done. simpl. intros; lia.
  - destruct IH as (tr & offsets & Htr & Hlen & Hstart & Hlo & Hoff & Hfed & Hall
                    & Hc & Hs).
    pose proof (outcome_Ok _ _ _ _ _ (run_chunk_outcome (λ _, True) g s) Hr)
      as (k & x0 & rest & _ & Hk & Htr1 & Hlen1 & Hfed1 & Hc1 & Hs1).
    set (seg := EvForward x0 (init_hidden myrnn) :: rest) in *.
    assert (length (fed_before_sample seg) = length seg) as Hall1.
    { rewrite Hfed1, Hlen1. apply py_slice_length; lia. }
    exists (seg ++ tr), (k :: offsets). split_and!.
    + rewrite Htr, Htr1. by rewrite <- app_assoc.
    + rewrite length_app, Hlen, Hlen1. simpl. lia.
    + intros [|j] Hj.
      * exists x0. done.
      * destruct (Hstart j) as [x Hx]; [simpl in Hj; lia | ]. exists x.
        rewrite lookup_app_r by (rewrite Hlen1; simpl; lia).
        rewrite Hlen1. rewrite <- Hx. f_equal. simpl. lia.
    + simpl. by rewrite Hlo.
    + by constructor.
    + rewrite fed_before_sample_app by done. by rewrite Hfed1, Hfed.
    + rewrite fed_before_sample_app by done. rewrite !length_app. lia.
    + congruence.
    + congruence.
Qed.

Lemma chunk_count_pos : 0 < len X / chunk_size.
Proof. apply Z.div_str_pos. lia. Qed.

Lemma train_epoch_run epoch h (s : state char) :
  ∃ losses generated h' s1,
    chunks_run [] s losses generated s1 ∧
    length losses = Z.to_nat (len X / chunk_size) ∧
    train_epoch epoch h s =
      Ok (h',
          add_report
            {| rep_epoch := epoch + 1;
               rep_cost := fdiv (fold_left fadd losses fzero)
                                (of_int (len X / chunk_size));
               rep_text := py_slice generated 0 750 |}
            (add_cost (fdiv (fold_left fadd losses fzero)
                            (of_int (len X / chunk_size))) s1)).
Proof.
  pose proof chunk_count_pos as Hn.
  destruct (outcome_total _ _
    (for_range_outcome
       (λ j (loc : num * list char * option (tensor3 num)) st,
          ∃ losses, chunks_run [] s losses loc.1.2 st ∧ length losses = j ∧
                    loc.1.1 = fold_left fadd losses fzero)
       (λ _, False) (len X / chunk_size) (λ _, train_chunk) (fzero, [], h) s
       ltac:(exists []; split_and!; [constructor | done | done])
       ltac:(intros j [[tot gen] h0] st _ (losses & Hch & Hlen & Htot);
             simpl in Hch, Htot; unfold train_chunk;
             destruct (run_chunk_total gen st) as (c & g1 & h1 & s1 & Hr);
             rewrite run_bind_unfold, Hr; simpl;
             exists (losses ++ [c]); split_and!;
               [by eapply chunks_run_snoc | rewrite length_app; simpl; lia
               | by rewrite fold_left_app, Htot])))
    as ([[tot gen] h'] & s1 & Hloop & losses & Hch & Hlen & Htot).
  simpl in Hch, Htot. exists losses, gen, h', s1. split_and!; [done | done | ].
  unfold train_epoch, floordiv, truediv.
  destruct (Z.eqb_spec chunk_size 0) as [? | _]; [lia | ].
  rewrite run_bind_unfold. simpl. rewrite run_bind_unfold, Hloop. simpl.
  rewrite run_bind_unfold. simpl. rewrite run_bind_unfold.
  destruct (Z.eqb_spec (len X / chunk_size) 0) as [? | _]; [lia | ].
  simpl. by rewrite Htot.
Qed.

End Chunks.

(** ** Generation *)

Lemma sample_trace_lt x0 tr ids x :
  (x0 < nchars)%nat → sample_trace x0 tr ids x → (x < nchars)%nat.
Proof. intros H0. induction 1; done. Qed.

Lemma sample_trace_head x0 tr ids x :
  sample_trace x0 tr ids x →
  tr = [] ∧ ids = [] ∧ x = x0 ∨
  ∃ h w i rest, tr = EvForward x0 h :: EvSample w i :: rest.
Proof.
  induction 1 as [|x0 tr ids x h w i _ IH Hw Hi]; [by left | right].
  destruct IH as [(-> & -> & ->) | (h' & w' & i' & rest & ->)].
  - by exists h, w, i, [].
  - by exists h', w', i', (rest ++ [EvForward x h; EvSample w i]).
Qed.

Lemma sample_trace_samples x0 tr ids x w i :
  sample_trace x0 tr ids x → EvSample w i ∈ tr →
  length w = nchars ∧ (i < nchars)%nat ∧ i ∈ ids.
Proof.
  induction 1 as [|x0 tr ids x h w' i' _ IH Hw Hi]; intros Hin.
  - by apply elem_of_nil in Hin.
  - apply elem_of_app in Hin as [Hin | Hin].
    + destruct (IH Hin) as (? & ? & ?). split_and!; [done | done | ].
      apply elem_of_app. by left.
    + apply elem_of_cons in Hin as [Heq | Hin]; [done | ].
      apply list_elem_of_singleton in Hin. injection Hin as -> ->.
      split_and!; [done | done | ]. apply elem_of_app. right. by left.
Qed.

Lemma prime_step_outcome (E : exn → Prop) (x : list nat) (j : nat) h
    (s : state char) :
  (j < length x)%nat → (∀ a, a ∈ x → (a < nchars)%nat) →
  outcome (λ _ s', ∃ xi, x !! j = Some xi ∧ s' = log_event (EvForward xi h) s)
          E (prime_step x (Z.of_nat j) h s).
Proof.
  intros Hj Hx. unfold prime_step.
  destruct (getitem_inside x (Z.of_nat j)) as (xi & Hgx & Hxi); [unfold len; lia | ].
  rewrite Nat2Z.id in Hxi.
  eapply outcome_bind_lift; [exact Hgx | ].
  eapply outcome_bind.
  { apply forward_outcome. simpl. apply Hx. by eapply list_elem_of_lookup_2. }
  intros [out h'] s1 [_ ->]. apply outcome_ret. by exists xi.
Qed.

Lemma sample_step_outcome (E : exn → Prop) temperature i x h generated
    (s : state char) :
  (∀ w g, length w = nchars → torch_multinomial w g = None →
          E (RuntimeError InvalidMultinomial)) →
  (x < nchars)%nat →
  outcome (λ r s', ∃ w sample pred_char,
             length w = nchars ∧ (sample < nchars)%nat ∧
             num_to_let !! sample = Some pred_char ∧
             r.1.1 = sample ∧ r.2 = generated ++ [pred_char] ∧
             trace s' = trace s ++ [EvForward x h; EvSample w sample])
          E (sample_step temperature i (x, h, generated) s).
Proof.
  intros HE Hx. unfold sample_step.
  eapply outcome_bind; [by apply forward_outcome | ].
  intros [out h'] s1 [Hout ->]. simpl in Hout.
  set (w := (λ v, fexp (fdiv v temperature)) <$> out).
  assert (length w = nchars) as Hw by (unfold w; by rewrite length_fmap).
  eapply outcome_bind; [apply multinomial_outcome; intros Hnone; by eapply HE | ].
  intros sample s2 (Hlt & g & ->). rewrite Hw in Hlt.
  destruct (proj2 (num_to_let_is_Some _) Hlt) as [pred_char Hpc].
  eapply outcome_bind_lift; [unfold dict_get; by rewrite Hpc | ].
  apply outcome_ret. exists w, sample, pred_char.
  split_and!; try done. simpl. by rewrite <- app_assoc.
Qed.

Lemma generate_outcome (E : exn → Prop) prime_str str_len temperature
    (s : state char) :
  (0 < str_len → ∀ w g, length w = nchars → torch_multinomial w g = None →
                        E (RuntimeError InvalidMultinomial)) →
  prime_str ≠ [] → (∀ c, c ∈ prime_str → c ∈ rawtxt) →
  outcome (generate_post prime_str str_len s) E
          (generate prime_str str_len temperature s).
Proof.
  intros HE Hne Hin. unfold generate.
  destruct (maparray_in_vocab prime_str Hin) as (prime & Hm & Hall).
  assert (∀ a, a ∈ prime → (a < nchars)%nat) as Hlt.
  { intros a Ha. apply list_elem_of_lookup in Ha as [i Hi].
    destruct (Forall2_lookup_r _ _ _ _ _ Hall Hi) as (c & _ & Hc).
    apply num_to_let_is_Some. by exists c. }
  assert (length prime ≠ 0%nat) as Hlen.
  { rewrite <- (Forall2_length _ _ _ Hall). by destruct prime_str. }
  destruct (last prime) as [x0|] eqn:Hlast;
    [ | apply last_None in Hlast; by subst].
  eapply outcome_bind_lift; [exact Hm | ].
  eapply outcome_bind.
  { apply (for_range_outcome
      (λ j (h : tensor3 num) st, ∃ tr,
         trace st = trace s ++ tr ∧
         Forall2 (λ e x, ∃ h, e = EvForward x h) tr (take j prime) ∧
         (∀ e, head tr = Some e → ∃ x1, e = EvForward x1 (init_hidden myrnn)) ∧
         (j = 0%nat → h = init_hidden myrnn))).
    - exists []. rewrite app_nil_r. split_and!; try done; constructor.
    - intros j h st Hj (tr & Htr & Hfw & Hhead & Hh0).
      eapply outcome_impl; [apply prime_step_outcome; [unfold len in Hj; lia | done] | | done].
      intros h' st' (xi & Hxi & ->).
      exists (tr ++ [EvForward xi h]). simpl. split_and!.
      + by rewrite Htr, <- app_assoc.
      + rewrite (take_S_r _ _ _ Hxi). apply Forall2_app; [done | ].
        constructor; [by exists h | constructor].
      + intros e He. destruct tr as [|e0 tr]; simpl in He.
        * injection He as <-. exists xi.
          apply Forall2_nil_inv_l in Hfw. destruct j; [by rewrite Hh0 | ].
          apply lookup_lt_Some in Hxi. destruct prime; simpl in *; [lia | done].
        * by apply Hhead.
      + done. }
  intros h1 s1 (tr_prime & Htr1 & Hfw & Hhead & _).
  unfold len in Hfw. rewrite Nat2Z.id, firstn_all in Hfw.
  eapply outcome_bind_lift; [by apply getitem_last | ].
  assert (x0 < nchars)%nat as Hx0.
  { apply Hlt. rewrite last_lookup in Hlast. by eapply list_elem_of_lookup_2. }
  eapply outcome_bind.
  { apply (for_range_outcome
      (λ j (loc : nat * tensor3 num * list char) st, ∃ tr ids sampled,
         trace st = trace s1 ++ tr ∧
         sample_trace x0 tr ids loc.1.1 ∧
         length ids = j ∧
         Forall2 (λ i c, num_to_let !! i = Some c) ids sampled ∧
         loc.2 = prime_str ++ sampled)).
    - exists [], [], []. rewrite !app_nil_r. split_and!; try done; constructor.
    - intros j [[x h] gen] st Hj (tr & ids & sampled & Htr & Hst & Hl & Hdec & Hgen).
      simpl in Hst, Hgen.
      eapply outcome_impl;
        [apply sample_step_outcome; [apply HE; lia | by eapply sample_trace_lt]
        | | done].
      intros [[x' h'] gen'] st' (w & i & c & Hw & Hi & Hc & Hx' & Hgen' & Htr').
      simpl in Hx', Hgen'. subst x' gen' gen.
      exists (tr ++ [EvForward x h; EvSample w i]), (ids ++ [i]), (sampled ++ [c]).
      simpl. split_and!.
      + by rewrite Htr', Htr, <- app_assoc.
      + by constructor.
      + rewrite length_app. simpl. lia.
      + apply Forall2_app; [done | ]. constructor; [done | constructor].
      + by rewrite <- app_assoc. }
  intros [[x h] gen] s2 (tr_sample & ids & sampled & Htr2 & Hst & Hl & Hdec & Hgen).
  simpl in Hst, Hgen. apply outcome_ret.
  exists prime, x0, tr_prime, tr_sample, ids, sampled, x.
  split_and!; try done.
  - by rewrite Htr2, Htr1, <- app_assoc.
  - destruct tr_prime as [|e rest].
    + apply Forall2_nil_inv_l in Hfw. by subst.
    + destruct (Hhead e) as [x1 ->]; [done | ]. by exists x1, rest.
Qed.

Lemma generate_Ok_post prime_str str_len temperature (s : state char) str s' :
  prime_str ≠ [] → (∀ c, c ∈ prime_str → c ∈ rawtxt) →
  generate prime_str str_len temperature s = Ok (str, s') →
  generate_post prime_str str_len s str s'.
Proof.
  intros Hne Hin Hgen.
  by apply (outcome_Ok _ _ _ _ _
    (generate_outcome (λ _, True) prime_str str_len temperature s
       ltac:(done) Hne Hin) Hgen).
Qed.

End Primitives.

(** ** An epoch with a chunk size that the corpus does not exceed *)

Lemma train_epoch_chunk_too_large epoch h (s : state char) :
  0 < chunk_size → len X ≤ chunk_size →
  train_epoch epoch h s =
    Raise (if chunk_size =? len X then ValueError else ZeroDivisionError).
Proof.
  intros Hpos Hle. unfold train_epoch, floordiv.
  destruct (Z.eqb_spec chunk_size 0) as [? | _]; [lia | ].
  rewrite run_bind_unfold. simpl. rewrite run_bind_unfold.
  destruct (Z.eqb_spec chunk_size (len X)) as [Heq | Hne].
  - rewrite <- Heq, Z_div_same_full by lia.
    unfold for_range. change (seqZ 0 1) with [0]. simpl.
    rewrite !run_bind_unfold. unfold run_chunk. rewrite run_bind_unfold.
    unfold random_chunk. rewrite run_bind_unfold.
    unfold randint, run_randint. rewrite <- Heq, Z.sub_diag. done.
  - rewrite Z.div_small by (unfold len in *; lia).
    unfold for_range. change (seqZ 0 0) with (@nil Z). simpl.
    rewrite run_bind_unfold. simpl. done.
Qed.

(** ** The distribution of a random chunk *)

Lemma dist_bind_ret_uniform {A B} (f : A → B) (w : Qc) (l : list A) :
  ((λ a, (Ok a, w)) <$> l : dist A) ≫= (λ a, mret (f a))
  = (λ a, (Ok (f a), w)) <$> l.
Proof.
  unfold mbind, dist_bind, mret, dist_ret.
  induction l as [|a l IH]; [done | ].
  cbn. f_equal; [ | exact IH]. f_equal. apply Qcmult_1_r.
Qed.

(** ** What the steps of a run change *)

Lemma lift_any {A} (r : result A) (s : state char) :
  outcome (λ a s', r = Ok a ∧ s' = s) (λ _, True) (lift r s).
Proof. by destruct r. Qed.

Lemma forward_any (self : RNN) x h (s : state char) :
  outcome (λ _ s', s' = log_event (EvForward x h) s) (λ _, True)
          (forward self x h s).
Proof.
  unfold forward. rewrite run_bind_unfold. simpl. rewrite run_bind_unfold. simpl.
  destruct (x <? input_size self)%nat; [ | done].
  by destruct (nn_GRU _ _ _).
Qed.

Lemma criterion_any out target (s : state char) :
  outcome (λ _ s', s' = s) (λ _, True) (criterion out target s).
Proof. unfold criterion. by destruct (target <? length out)%nat. Qed.

Lemma multinomial_any (w : list num) (s : state char) :
  outcome (λ i s', ∃ g, s' = log_event (EvSample w i) (set_torch_gen g s))
          (λ _, True) (multinomial w s).
Proof.
  unfold multinomial.
  destruct (torch_multinomial w (torch_gen s)) as [[i g]|]; simpl; eauto.
Qed.

Lemma randint_any lo hi (s : state char) :
  outcome (λ k s', k = (np_random_randint lo hi (np_gen s)).1 ∧
                   s' = set_np_gen (np_random_randint lo hi (np_gen s)).2 s)
          (λ _, True) (randint (M:=run char) lo hi s).
Proof.
  unfold randint, run_randint. destruct (lo <? hi); [ | done].
  by destruct (np_random_randint lo hi (np_gen s)).
Qed.

Lemma num_to_let_in_corpus i c : dict_get num_to_let i = Ok c → c ∈ rawtxt.
Proof.
  unfold dict_get. destruct (num_to_let !! i) as [c'|] eqn:Hc; [ | done].
  intros [= ->]. apply elem_of_letters. rewrite num_to_let_lookup in Hc.
  by eapply list_elem_of_lookup_2.
Qed.

Lemma train_step_effects (x y : list nat) i h cost generated (s : state char) :
  outcome (λ r s', ∃ xi c letter,
             s' = log_event (EvForward xi h) s ∧
             r.1.2 = fadd cost c ∧ r.2 = generated ++ [letter] ∧
             letter ∈ rawtxt)
          (λ _, True) (train_step x y i (h, cost, generated) s).
Proof.
  unfold train_step.
  eapply outcome_bind; [apply lift_any | ]. intros xi ? [_ ->].
  eapply outcome_bind; [apply forward_any | ]. intros [out h'] ? ->.
  eapply outcome_bind; [apply lift_any | ]. intros letter ? [Hletter ->].
  eapply outcome_bind; [apply lift_any | ]. intros yi ? [_ ->].
  eapply outcome_bind; [apply criterion_any | ]. intros c ? ->.
  apply outcome_ret. exists xi, c, letter. split_and!; try done.
  by eapply num_to_let_in_corpus.
Qed.

Lemma run_chunk_effects generated (s : state char) :
  outcome (λ r s', ∃ letters,
             theta s' = adam_steps
               [(np_random_randint 0 (len X - chunk_size) (np_gen s)).1] (theta s) ∧
             np_gen s' = (np_random_randint 0 (len X - chunk_size) (np_gen s)).2 ∧
             torch_gen s' = torch_gen s ∧
             r.1.2 = generated ++ letters ∧
             length letters = Z.to_nat chunk_size ∧
             Forall (λ c, c ∈ rawtxt) letters)
          (λ _, True) (run_chunk generated s).
Proof.
  unfold run_chunk, random_chunk.
  eapply outcome_bind.
  { eapply outcome_bind; [apply randint_any | ].
    intros k s1 [-> ->].
    apply (outcome_ret (λ r s1,
      r = (py_slice X (np_random_randint 0 (len X - chunk_size) (np_gen s)).1
             ((np_random_randint 0 (len X - chunk_size) (np_gen s)).1 + chunk_size),
           py_slice Y (np_random_randint 0 (len X - chunk_size) (np_gen s)).1
             ((np_random_randint 0 (len X - chunk_size) (np_gen s)).1 + chunk_size)) ∧
      s1 = set_np_gen (np_random_randint 0 (len X - chunk_size) (np_gen s)).2 s)).
    done. }
  intros [x y] s1 [[= -> ->] ->].
  eapply outcome_bind.
  { apply (for_range_outcome
      (λ j (loc : tensor3 num * num * list char) st, ∃ letters,
         loc.2 = generated ++ letters ∧ length letters = j ∧
         Forall (λ c, c ∈ rawtxt) letters ∧
         theta st = theta s ∧ torch_gen st = torch_gen s ∧
         np_gen st = (np_random_randint 0 (len X - chunk_size) (np_gen s)).2)).
    - exists []. rewrite app_nil_r. split_and!; done.
    - intros j [[h cost] gen] st _ (letters & Hgen & Hlen & Hall & Hθ & Htg & Hng).
      simpl in Hgen. subst gen.
      eapply outcome_impl; [apply train_step_effects | | done].
      intros [[h' cost'] gen'] st' (xi & c & letter & -> & _ & Hgen' & Hin).
      simpl in Hgen'. exists (letters ++ [letter]). simpl. split_and!; try done.
      + by rewrite Hgen', <- app_assoc.
      + rewrite length_app. simpl. lia.
      + apply Forall_app. split; [done | by constructor]. }
  intros [[h cost] gen] st (letters & Hgen & Hlen & Hall & Hθ & Htg & Hng).
  simpl in Hgen.
  rewrite run_bind_unfold. simpl. exists letters.
  split_and!; try done. unfold adam_steps. simpl. by rewrite Hθ.
Qed.

Lemma drawn_offsets_S n g :
  drawn_offsets (S n) g =
    ((np_random_randint 0 (len X - chunk_size) g).1
       :: (drawn_offsets n (np_random_randint 0 (len X - chunk_size) g).2).1,
     (drawn_offsets n (np_random_randint 0 (len X - chunk_size) g).2).2).
Proof.
  simpl. destruct (np_random_randint 0 (len X - chunk_size) g) as [k g'].
  simpl. by destruct (drawn_offsets n g').
Qed.

Lemma chunks_run_params generated s losses generated' s' :
  TorchLaws T → 0 < chunk_size < len X →
  chunks_run generated s losses generated' s' →
  ∃ offsets tr,
    offsets = (drawn_offsets (length losses) (np_gen s)).1 ∧
    np_gen s' = (drawn_offsets (length losses) (np_gen s)).2 ∧
    trace s' = trace s ++ tr ∧
    length (fed_before_sample tr) = length tr ∧
    fed_before_sample tr
      = concat ((λ k, py_slice X k (k + chunk_size)) <$> offsets) ∧
    length offsets = length losses ∧
    Forall (λ k, 0 ≤ k < len X - chunk_size) offsets ∧
    theta s' = adam_steps offsets (theta s) ∧
    torch_gen s' = torch_gen s.
Proof.
  intros laws Hsize.
  induction 1 as [|g s c g1 h1 s1 losses g2 s2 Hr _ IH].
  - exists [], []. rewrite app_nil_r. split_and!; done.
  - destruct IH as (offsets & tr & Hoffs & Hng & Htr & Hall & Hfed & Hlo & Hoff
                    & Hθ & Htg).
    pose proof (outcome_Ok _ _ _ _ _ (run_chunk_outcome laws Hsize (λ _, True) g s) Hr)
      as (k & x0 & rest & Hdraw & Hk & Htr1 & Hlen1 & Hfed1 & _ & _).
    pose proof (outcome_Ok _ _ _ _ _ (run_chunk_effects g s) Hr)
      as (_ & Hθ1 & Hng1 & Htg1 & _).
    rewrite <- Hdraw in Hθ1.
    set (seg := EvForward x0 (init_hidden myrnn) :: rest) in *.
    assert (length (fed_before_sample seg) = length seg) as Hall1.
    { rewrite Hfed1, Hlen1. apply py_slice_length; lia. }
    exists (k :: offsets), (seg ++ tr). split_and!.
    + simpl length. rewrite drawn_offsets_S, <- Hng1, <- Hdraw. simpl.
      by rewrite Hoffs.
    + simpl length. rewrite drawn_offsets_S, <- Hng1. simpl. done.
    + rewrite Htr, Htr1. by rewrite <- app_assoc.
    + rewrite fed_before_sample_app by done. rewrite !length_app. lia.
    + rewrite fed_before_sample_app by done. by rewrite Hfed1, Hfed.
    + simpl. by rewrite Hlo.
    + by constructor.
    + rewrite Hθ, Hθ1. done.
    + congruence.
Qed.

(** * Properties of the notebook *)

(** C6.  The two maps of the vocabulary are inverse to each other: an id
    decodes to a character exactly when the character encodes to the id;
    every character of the corpus encodes to an id that decodes to it,
    every id below [nchars] decodes to a character of the corpus that
    encodes to it; and [nchars] is the number of distinct characters of the
    corpus. *)
Theorem vocabulary_maps_inverse :
  (∀ c i, let_to_num !! c = Some i ↔ num_to_let !! i = Some c) ∧
  (∀ c, c ∈ rawtxt →
     ∃ i, dict_get let_to_num c = Ok i ∧ dict_get num_to_let i = Ok c) ∧
  (∀ i, (i < nchars)%nat →
     ∃ c, dict_get num_to_let i = Ok c ∧ dict_get let_to_num c = Ok i ∧
          c ∈ rawtxt) ∧
  nchars = length (remove_dups rawtxt) ∧
  nchars = size (list_to_set rawtxt : gset char).
Proof.
  split_and!.
  - apply let_to_num_lookup.
  - intros c Hc. destruct (proj2 (let_to_num_is_Some c) Hc) as [i Hi].
    exists i. unfold dict_get. rewrite Hi.
    apply let_to_num_lookup in Hi. by rewrite Hi.
  - intros i Hi. destruct (proj2 (num_to_let_is_Some i) Hi) as [c Hc].
    exists c. unfold dict_get. rewrite Hc.
    pose proof (proj2 (let_to_num_lookup c i) Hc) as Hl. rewrite Hl.
    split_and!; [done | done | ]. apply let_to_num_is_Some. by exists i.
  - rewrite nchars_letters. unfold letters_of.
    replace (list_to_set rawtxt : gset char)
      with (list_to_set (remove_dups rawtxt) : gset char).
    + apply (size_list_to_set (C:=gset char)). apply NoDup_remove_dups.
    + apply set_eq. intros c. by rewrite !elem_of_list_to_set, elem_of_remove_dups.
  - apply nchars_letters.
Qed.

(** C8, as the code has it.  [create_map] has no failure: for every corpus,
    the empty one included, it returns the map whose ids are exactly the
    numbers below [nchars]; the corpus is empty exactly when this map is
    empty, that is when [nchars] is 0. *)
Theorem create_map_total :
  (∀ i, is_Some (create_map rawtxt !! i) ↔ (i < nchars)%nat) ∧
  (rawtxt = [] ↔ create_map rawtxt = ∅) ∧
  (rawtxt = [] ↔ nchars = 0%nat).
Proof.
  assert (rawtxt = [] ↔ nchars = 0%nat) as Hn.
  { rewrite nchars_letters. split.
    - intros E. unfold letters_of. rewrite E. simpl. by rewrite elements_empty.
    - intros Hl. apply length_zero_iff_nil in Hl.
      assert (∀ c, c ∈ rawtxt → False) as Hno.
      { intros c Hc%elem_of_letters. rewrite Hl in Hc. by apply elem_of_nil in Hc. }
      destruct rawtxt as [|c l]; [done | ]. exfalso. apply (Hno c). by left. }
  split_and!.
  - apply num_to_let_is_Some.
  - rewrite Hn. unfold nchars, num_to_let. by rewrite map_size_empty_iff.
  - done.
Qed.

(** C2.  For a non-empty corpus, [X] is the encoding of the corpus, one id
    per character, [Y] has the length of [X], and
    [Y[i] = X[(i+1) mod len(X)]] at every index. *)
Theorem shift_invariant :
  rawtxt ≠ [] →
  maparray rawtxt let_to_num = Ok X ∧
  length X = length rawtxt ∧
  length Y = length X ∧
  ∀ i, (i < length X)%nat → Y !! i = X !! ((i + 1) mod length X)%nat.
Proof.
  intros _. split_and!.
  - apply maparray_rawtxt.
  - apply X_length.
  - apply Y_length.
  - intros i Hi. by apply np_roll_next.
Qed.

(** C3.  For [0 < size < len(X)], [random_chunk(size)] draws its offset
    [k] with [randint(0, len(X) - size)]: as a distribution, every offset of
    [[0, len(X) - size)] has the same probability [1 / (len(X) - size)] and
    yields the pair of slices [X[k:k+size]], [Y[k:k+size]]; both slices
    have exactly [size] elements, element [i] of them being [X[k+i]] and
    [Y[k+i]]; and in a run the call returns these slices for the offset
    that numpy's generator draws, which lies in [[0, len(X) - size)]. *)
Theorem random_chunk_uniform (size : Z) :
  TorchLaws T → 0 < size < len X →
  random_chunk (M:=dist) size =
    (λ k, (Ok (py_slice X k (k + size), py_slice Y k (k + size)),
           (1 / Qc_of_Z (len X - size))%Qc)) <$> seqZ 0 (len X - size) ∧
  (∀ k, 0 ≤ k < len X - size →
     length (py_slice X k (k + size)) = Z.to_nat size ∧
     length (py_slice Y k (k + size)) = Z.to_nat size ∧
     ∀ i, (i < Z.to_nat size)%nat →
       py_slice X k (k + size) !! i = X !! (Z.to_nat k + i)%nat ∧
       py_slice Y k (k + size) !! i = Y !! (Z.to_nat k + i)%nat) ∧
  (∀ s : state char, ∃ k,
     k = (np_random_randint 0 (len X - size) (np_gen s)).1 ∧
     0 ≤ k < len X - size ∧
     random_chunk (M:=run char) size s =
       Ok ((py_slice X k (k + size), py_slice Y k (k + size)),
           set_np_gen (np_random_randint 0 (len X - size) (np_gen s)).2 s)).
Proof.
  intros laws Hsize.
  assert (len Y = len X) as HY by (unfold len; by rewrite Y_length).
  split_and!.
  - unfold random_chunk, randint, dist_randint.
    destruct (Z.ltb_spec 0 (len X - size)); [ | lia].
    rewrite Z.sub_0_r. apply dist_bind_ret_uniform.
  - intros k Hk. split_and!.
    + apply py_slice_length; lia.
    + apply py_slice_length; lia.
    + intros i Hi. split; apply py_slice_lookup; lia.
  - intros s.
    pose proof (randint_range T laws 0 (len X - size) (np_gen s)) as Hr.
    exists (np_random_randint 0 (len X - size) (np_gen s)).1.
    split_and!; [done | lia | lia | ].
    unfold random_chunk. rewrite run_bind_unfold.
    unfold randint, run_randint.
    destruct (Z.ltb_spec 0 (len X - size)); [ | lia].
    by destruct (np_random_randint 0 (len X - size) (np_gen s)).
Qed.


(** C5.  [init_hidden] is the all-zero tensor of the configured size (for
    [myrnn] one layer of 512 zeros).  In an epoch the first call of the
    cell in every chunk, that is call number [j * chunk_size] for every
    chunk [j], receives this zero tensor, and the chunk body does not read
    the hidden state that the previous chunk left.  In [generate] the first
    call of the cell receives the zero tensor. *)
Theorem hidden_state_fresh epoch h (s : state char)
    prime_str str_len temperature str (s2 : state char) :
  TorchLaws T → 0 < chunk_size < len X →
  prime_str ≠ [] → (∀ c, c ∈ prime_str → c ∈ rawtxt) →
  generate prime_str str_len temperature s = Ok (str, s2) →
  init_hidden myrnn = [[replicate 512 fzero]] ∧
  (∃ h' s' tr,
     train_epoch epoch h s = Ok (h', s') ∧
     trace s' = trace s ++ tr ∧
     length tr = (Z.to_nat (len X / chunk_size) * Z.to_nat chunk_size)%nat ∧
     ∀ j, (j < Z.to_nat (len X / chunk_size))%nat →
       ∃ x, tr !! (j * Z.to_nat chunk_size)%nat
            = Some (EvForward x (init_hidden myrnn))) ∧
  (∀ totcost generated h1 h2,
     train_chunk (totcost, generated, h1) = train_chunk (totcost, generated, h2)) ∧
  (∃ x rest, trace s2 = trace s ++ EvForward x (init_hidden myrnn) :: rest).
Proof.
  intros laws Hsize Hne Hin Hgen. split_and!.
  - done.
  - destruct (train_epoch_run laws Hsize epoch h s)
      as (losses & generated & h' & s1 & Hch & Hlen & Hrun).
    destruct (chunks_run_trace laws Hsize _ _ _ _ _ Hch)
      as (tr & _ & Htr & Hltr & Hstart & _).
    eexists h', _, tr. split_and!; [exact Hrun | done | by rewrite <- Hlen | ].
    intros j Hj. apply Hstart. by rewrite Hlen.
  - done.
  - pose proof (generate_Ok_post laws _ _ _ _ _ _ Hne Hin Hgen)
      as (prime & x0 & tr1 & tr2 & ids & sampled & x & _ & _ & Htr & _ & Hhead & _).
    destruct Hhead as (x1 & rest & ->).
    exists x1, (rest ++ tr2). by rewrite Htr.
Qed.

(** C9.  For a non-empty in-vocabulary prime and a length [>= 0]: a
    string that [generate] returns has length [len(prime) + length] and
    the prime as a prefix; [generate] raises nothing but the error of
    [torch.multinomial] on weights it rejects; and it returns a string
    whenever the sampler accepts every vector of [nchars] weights. *)
Theorem generate_length_prefix prime_str str_len temperature (s : state char) :
  TorchLaws T →
  prime_str ≠ [] → (∀ c, c ∈ prime_str → c ∈ rawtxt) → 0 ≤ str_len →
  (∀ str s', generate prime_str str_len temperature s = Ok (str, s') →
     len str = len prime_str + str_len ∧ prime_str `prefix_of` str) ∧
  (∀ e, generate prime_str str_len temperature s = Raise e →
     e = RuntimeError InvalidMultinomial) ∧
  ((∀ w g, length w = nchars → is_Some (torch_multinomial w g)) →
   ∃ str s', generate prime_str str_len temperature s = Ok (str, s')).
Proof.
  intros laws Hne Hin Hlen. split_and!.
  - intros str s' Hgen.
    pose proof (generate_Ok_post laws _ _ _ _ _ _ Hne Hin Hgen)
      as (prime & x0 & tr1 & tr2 & ids & sampled & x & _ & _ & _ & _ & _ & _
          & Hl & Hdec & ->).
    split; [ | by exists sampled].
    unfold len. rewrite length_app, <- (Forall2_length _ _ _ Hdec), Hl. lia.
  - intros e He.
    pose proof (generate_outcome laws (λ e, e = RuntimeError InvalidMultinomial)
      prime_str str_len temperature s ltac:(done) Hne Hin) as Hout.
    by rewrite He in Hout.
  - intros Hsampler.
    destruct (outcome_total _ _
      (generate_outcome laws (λ _, False) prime_str str_len temperature s
         ltac:(intros _ w g Hw Hnone; destruct (Hsampler w g Hw) as [? Hsome];
               congruence) Hne Hin))
      as (str & s' & Hgen & _).
    by exists str, s'.
Qed.

(** C10.  In a run of [generate] on a non-empty in-vocabulary prime, every
    multinomial draw is taken from [nchars] weights and is an id below
    [nchars] that [num_to_let] decodes; the lookup of a drawn id never
    raises KeyError; there are [str_len] draws, and the characters appended
    to the prime are their decodings, all characters of the corpus. *)
Theorem sampled_ids_in_vocabulary prime_str str_len temperature (s : state char) :
  TorchLaws T →
  prime_str ≠ [] → (∀ c, c ∈ prime_str → c ∈ rawtxt) →
  (∀ e, generate prime_str str_len temperature s = Raise e → e ≠ KeyError) ∧
  (∀ str s', generate prime_str str_len temperature s = Ok (str, s') →
     ∃ tr ids sampled,
       trace s' = trace s ++ tr ∧
       (∀ w i, EvSample w i ∈ tr →
          length w = nchars ∧ (i < nchars)%nat ∧ i ∈ ids) ∧
       length ids = Z.to_nat str_len ∧
       Forall2 (λ i c, dict_get num_to_let i = Ok c) ids sampled ∧
       str = prime_str ++ sampled ∧
       ∀ c, c ∈ sampled → c ∈ rawtxt).
Proof.
  intros laws Hne Hin. split.
  - intros e He.
    pose proof (generate_outcome laws (λ e, e = RuntimeError InvalidMultinomial)
      prime_str str_len temperature s ltac:(done) Hne Hin) as Hout.
    rewrite He in Hout. simpl in Hout. by subst.
  - intros str s' Hgen.
    pose proof (generate_Ok_post laws _ _ _ _ _ _ Hne Hin Hgen)
      as (prime & x0 & tr1 & tr2 & ids & sampled & x & _ & _ & Htr & Hfw & _
          & Hst & Hl & Hdec & ->).
    exists (tr1 ++ tr2), ids, sampled. split_and!; try done.
    + intros w i Hev. apply elem_of_app in Hev as [Hev | Hev].
      * apply list_elem_of_lookup in Hev as [j Hj].
        destruct (Forall2_lookup_l _ _ _ _ _ Hfw Hj) as (? & _ & h & ?). done.
      * by eapply sample_trace_samples.
    + eapply Forall2_impl; [done | ]. intros i c Hc. unfold dict_get. by rewrite Hc.
    + intros c Hc. apply list_elem_of_lookup in Hc as [j Hj].
      destruct (Forall2_lookup_r _ _ _ _ _ Hdec Hj) as (i & _ & Hi).
      apply elem_of_letters. rewrite num_to_let_lookup in Hi.
      by eapply list_elem_of_lookup_2.
Qed.

(** C7, as the code has it.  [generate] does not check the temperature:
    whatever the temperature, for a non-empty in-vocabulary prime it
    returns a string, or it raises the error of [torch.multinomial] on
    weights [exp(logits / temperature)] that the sampler rejects; with a
    length [<= 0] it draws nothing and returns the prime. *)
Theorem generate_any_temperature prime_str str_len temperature (s : state char) :
  TorchLaws T →
  prime_str ≠ [] → (∀ c, c ∈ prime_str → c ∈ rawtxt) →
  ((∃ str s', generate prime_str str_len temperature s = Ok (str, s')) ∨
   generate prime_str str_len temperature s = Raise (RuntimeError InvalidMultinomial)) ∧
  (str_len ≤ 0 →
   ∃ s', generate prime_str str_len temperature s = Ok (prime_str, s')).
Proof.
  intros laws Hne Hin.
  pose proof (generate_outcome laws (λ e, e = RuntimeError InvalidMultinomial)
    prime_str str_len temperature s ltac:(done) Hne Hin) as Hout.
  destruct (generate prime_str str_len temperature s) as [[str s']|e] eqn:Hgen;
    simpl in Hout.
  - split; [left; by exists str, s' | ].
    intros Hle. exists s'. do 2 f_equal.
    destruct Hout as (prime & x0 & tr1 & tr2 & ids & sampled & x & _ & _ & _ & _
                      & _ & _ & Hl & Hdec & ->).
    replace (Z.to_nat str_len) with 0%nat in Hl by lia.
    apply length_zero_iff_nil in Hl. subst ids.
    apply Forall2_nil_inv_l in Hdec. subst sampled. by rewrite app_nil_r.
  - subst e. split; [by right | ].
    intros Hle. exfalso.
    pose proof (generate_outcome laws (λ _, False) prime_str str_len temperature s
      ltac:(intros; lia) Hne Hin) as Hno.
    by rewrite Hgen in Hno.
Qed.

(** C1, as the code has it.  In a run of [generate] with a non-empty
    in-vocabulary prime and at least one character to sample, the priming
    loop runs the cell on every character of the prime, the last one
    included, and the sampling loop then feeds the last character again:
    before the first draw the cell receives the ids of the prime followed
    by the id of its last character a second time. *)
Theorem generate_feeds_last_twice prime_str str_len temperature
    (s : state char) str (s' : state char) :
  TorchLaws T →
  prime_str ≠ [] → (∀ c, c ∈ prime_str → c ∈ rawtxt) → 0 < str_len →
  generate prime_str str_len temperature s = Ok (str, s') →
  ∃ prime x0 tr,
    maparray prime_str let_to_num = Ok prime ∧
    last prime = Some x0 ∧
    trace s' = trace s ++ tr ∧
    fed_before_sample tr = prime ++ [x0].
Proof.
  intros laws Hne Hin Hlen Hgen.
  pose proof (generate_Ok_post laws _ _ _ _ _ _ Hne Hin Hgen)
    as (prime & x0 & tr1 & tr2 & ids & sampled & x & Hm & Hlast & Htr & Hfw & _
        & Hst & Hl & _ & _).
  exists prime, x0, (tr1 ++ tr2). split_and!; try done.
  pose proof (fed_before_sample_Forall2 _ _ Hfw) as Hfed.
  rewrite fed_before_sample_app.
  - rewrite Hfed. f_equal.
    destruct (sample_trace_head _ _ _ _ Hst)
      as [(_ & -> & _) | (h & w & i & rest & ->)]; [simpl in Hl; lia | done].
  - rewrite Hfed. symmetry. by eapply Forall2_length.
Qed.

(** * More of the notebook *)

(** ** Encoding and decoding *)

Lemma maparray_Raise `{Countable K} {V} (txt : list K) (d : gmap K V) e :
  maparray txt d = Raise e ↔ e = KeyError ∧ ∃ c, c ∈ txt ∧ d !! c = None.
Proof.
  unfold maparray. induction txt as [|c txt IH]; simpl.
  - split; [done | ]. intros [_ (c & Hc & _)]. by apply elem_of_nil in Hc.
  - unfold mbind, result_mbind, result_bind, dict_get.
    destruct (d !! c) as [v|] eqn:Hc.
    + destruct (maparray_loop txt d) as [vs|e'].
      * split; [done | ]. intros [He (c' & Hin & Hnone)].
        apply elem_of_cons in Hin as [-> | Hin]; [congruence | ].
        assert (Ok vs = Raise e) as Habs by (apply IH; eauto). done.
      * rewrite IH. split; intros [-> (c' & Hin & Hnone)]; (split; [done | ]).
        -- exists c'. split; [by right | done].
        -- apply elem_of_cons in Hin as [-> | Hin]; [congruence | eauto].
    + split.
      * intros [= <-]. split; [done | ]. exists c. split; [by left | done].
      * by intros [-> _].
Qed.

Lemma let_to_num_lt c i : let_to_num !! c = Some i → (i < nchars)%nat.
Proof.
  rewrite let_to_num_lookup. intros Hi. apply num_to_let_is_Some. by exists c.
Qed.

Lemma let_to_num_None c : let_to_num !! c = None ↔ c ∉ rawtxt.
Proof. by rewrite eq_None_not_Some, let_to_num_is_Some. Qed.

(** X1.  Encoding with [let_to_num] and decoding with [num_to_let] are
    inverse on whole texts: [maparray] encodes [txt] to [ids] exactly when
    it decodes [ids] to [txt]; an encoding has one id below [nchars] per
    character, and only a text of corpus characters has one. *)
Theorem encode_decode_round_trip (txt : list char) (ids : list nat) :
  (maparray txt let_to_num = Ok ids ↔ maparray ids num_to_let = Ok txt) ∧
  (maparray txt let_to_num = Ok ids →
     length ids = length txt ∧
     Forall (λ i, (i < nchars)%nat) ids ∧
     Forall (λ c, c ∈ rawtxt) txt).
Proof.
  rewrite !maparray_Forall2. split.
  - rewrite <- (Forall2_flip _ txt ids). split; intros Hall;
      (eapply Forall2_impl; [exact Hall | ]); intros i c; simpl;
      by rewrite let_to_num_lookup.
  - intros Hall. split_and!.
    + symmetry. by eapply Forall2_length.
    + apply Forall_forall. intros i Hi. apply list_elem_of_lookup in Hi as [j Hj].
      destruct (Forall2_lookup_r _ _ _ _ _ Hall Hj) as (c & _ & Hc).
      by eapply let_to_num_lt.
    + apply Forall_forall. intros c Hc. apply list_elem_of_lookup in Hc as [j Hj].
      destruct (Forall2_lookup_l _ _ _ _ _ Hall Hj) as (i & _ & Hi).
      apply let_to_num_is_Some. by exists i.
Qed.

(** X2.  [maparray] with [let_to_num] raises exactly on a text with a
    character that the corpus does not have, and what it raises is
    KeyError; on every other text it returns an encoding. *)
Theorem maparray_unknown_character (txt : list char) :
  (maparray txt let_to_num = Raise KeyError ↔ ∃ c, c ∈ txt ∧ c ∉ rawtxt) ∧
  (∀ e, maparray txt let_to_num = Raise e → e = KeyError) ∧
  ((∃ ids, maparray txt let_to_num = Ok ids) ↔ ∀ c, c ∈ txt → c ∈ rawtxt).
Proof.
  split_and!.
  - rewrite maparray_Raise. split.
    + intros [_ (c & Hc & Hnone)]. exists c. by rewrite <- let_to_num_None.
    + intros (c & Hc & Hnone). split; [done | ]. exists c.
      by rewrite let_to_num_None.
  - intros e He. by apply maparray_Raise in He as [-> _].
  - split.
    + intros [ids Hids] c Hc.
      destruct (proj2 (encode_decode_round_trip txt ids) Hids) as (_ & _ & Hall).
      by eapply Forall_forall in Hall.
    + intros Hin. destruct (maparray_in_vocab txt Hin) as (ids & Hm & _). eauto.
Qed.


(** X4.  For a positive [size], [random_chunk(size)] returns exactly when
    [size < len(X)]; with [size >= len(X)] the call of [randint] raises
    ValueError, in a run and with probability 1 in the distribution. *)
Theorem random_chunk_returns_iff (size : Z) (s : state char) :
  0 < size →
  ((∃ r s', random_chunk (M:=run char) size s = Ok (r, s')) ↔ size < len X) ∧
  (len X ≤ size →
     random_chunk (M:=run char) size s = Raise ValueError ∧
     random_chunk (M:=dist) size = [(Raise ValueError, 1%Qc)]).
Proof.
  intros _.
  assert (len X ≤ size → random_chunk (M:=run char) size s = Raise ValueError)
    as Hraise.
  { intros Hle. unfold random_chunk. rewrite run_bind_unfold.
    unfold randint, run_randint.
    by destruct (Z.ltb_spec 0 (len X - size)); [lia | ]. }
  split.
  - split.
    + intros (r & s' & Hr). destruct (Z.lt_ge_cases size (len X)); [done | ].
      rewrite Hraise in Hr by done. done.
    + intros Hlt. unfold random_chunk. rewrite run_bind_unfold.
      unfold randint, run_randint.
      destruct (Z.ltb_spec 0 (len X - size)); [ | lia].
      destruct (np_random_randint 0 (len X - size) (np_gen s)) as [k g]. eauto.
  - intros Hle. split; [by apply Hraise | ].
    unfold random_chunk, randint, dist_randint.
    by destruct (Z.ltb_spec 0 (len X - size)); [lia | ].
Qed.

(** X7.  [generate] on a prime with a character that the corpus does not
    have raises KeyError, whatever the length, the temperature and the
    state. *)
Theorem generate_unknown_character prime_str str_len temperature
    (s : state char) :
  (∃ c, c ∈ prime_str ∧ c ∉ rawtxt) →
  generate prime_str str_len temperature s = Raise KeyError.
Proof.
  intros Hc. apply (maparray_unknown_character prime_str) in Hc.
  unfold generate. rewrite run_bind_unfold. unfold lift. by rewrite Hc.
Qed.

(** ** What an epoch leaves *)

Lemma chunks_run_generated generated s losses generated' s' :
  chunks_run generated s losses generated' s' →
  ∃ letters, generated' = generated ++ letters ∧
             length letters = (length losses * Z.to_nat chunk_size)%nat ∧
             Forall (λ c, c ∈ rawtxt) letters.
Proof.
  induction 1 as [|g s c g1 h1 s1 losses g2 s2 Hr _ IH].
  - exists []. by rewrite app_nil_r.
  - destruct IH as (letters & -> & Hlen & Hall).
    pose proof (outcome_Ok _ _ _ _ _ (run_chunk_effects g s) Hr)
      as (letters1 & _ & _ & _ & Hg1 & Hlen1 & Hall1).
    simpl in Hg1. subst g1. exists (letters1 ++ letters). split_and!.
    + by rewrite <- app_assoc.
    + rewrite length_app. simpl. lia.
    + by apply Forall_app.
Qed.

Lemma py_slice_prefix {A} (l : list A) (n : Z) :
  0 ≤ n → py_slice l 0 n = take (Z.to_nat n) l.
Proof.
  intros Hn. unfold py_slice, slice_bound, len.
  change (0 <? 0) with false. cbv iota.
  destruct (Z.ltb_spec n 0); [lia | ].
  rewrite (Z.min_l 0) by lia. rewrite Z.sub_0_r. change (Z.to_nat 0) with 0%nat.
  rewrite drop_0.
  destruct (Z.le_ge_cases n (Z.of_nat (length l))).
  - by rewrite Z.min_l by lia.
  - rewrite Z.min_r by lia. rewrite Nat2Z.id.
    by rewrite !take_ge by lia.
Qed.

Lemma all_forward_cell_inputs (tr : list event) :
  length (fed_before_sample tr) = length tr →
  cell_inputs tr = fed_before_sample tr ∧ draws tr = [].
Proof.
  induction tr as [|[x h|w i] tr IH]; simpl; intros Hlen.
  - done.
  - destruct IH as [-> ->]; [lia | done].
  - lia.
Qed.

(** X9.  With [0 < chunk_size < len(X)], an epoch makes one optimizer step
    per chunk, in the order of the chunks and on the slices of [X] and [Y]
    at the chunk's offset, the offsets being the successive draws of
    [randint(0, len(X) - chunk_size)] by numpy's generator; the cell is fed
    the slices of [X] at these offsets one after the other; nothing is
    sampled, and torch's generator is left as it was. *)
Theorem epoch_parameter_updates epoch h (s : state char) :
  TorchLaws T → 0 < chunk_size < len X →
  ∃ offsets tr h' s',
    train_epoch epoch h s = Ok (h', s') ∧
    Z.of_nat (length offsets) = len X / chunk_size ∧
    offsets = (drawn_offsets (length offsets) (np_gen s)).1 ∧
    np_gen s' = (drawn_offsets (length offsets) (np_gen s)).2 ∧
    Forall (λ k, 0 ≤ k < len X - chunk_size) offsets ∧
    theta s' = adam_steps offsets (theta s) ∧
    trace s' = trace s ++ tr ∧
    cell_inputs tr = concat ((λ k, py_slice X k (k + chunk_size)) <$> offsets) ∧
    draws tr = [] ∧
    torch_gen s' = torch_gen s.
Proof.
  intros laws Hsize.
  destruct (train_epoch_run laws Hsize epoch h s)
    as (losses & generated & h' & s1 & Hch & Hlen & Hrun).
  destruct (chunks_run_params _ _ _ _ _ laws Hsize Hch)
    as (offsets & tr & Hoffs & Hng & Htr & Hall & Hfed & Hlo & Hoff & Hθ & Htg).
  destruct (all_forward_cell_inputs tr Hall) as [Hin Hdr].
  pose proof (chunk_count_pos Hsize).
  eexists offsets, tr, h', _.
  split_and!; [exact Hrun | lia | by rewrite Hlo | .. ]; simpl;
    try (rewrite Hlo); congruence.
Qed.

(** X10.  With [0 < chunk_size < len(X)], the text an epoch prints is made
    of corpus characters and has [min(750, (len(X) // chunk_size) *
    chunk_size)] of them: one predicted character per call of the cell, cut
    at 750. *)
Theorem epoch_generated_text epoch h (s : state char) :
  TorchLaws T → 0 < chunk_size < len X →
  ∃ h' s' r,
    train_epoch epoch h s = Ok (h', s') ∧
    stdout s' = stdout s ++ [r] ∧
    length (rep_text r)
      = (750 `min` (Z.to_nat (len X / chunk_size) * Z.to_nat chunk_size))%nat ∧
    Forall (λ c, c ∈ rawtxt) (rep_text r).
Proof.
  intros laws Hsize.
  destruct (train_epoch_run laws Hsize epoch h s)
    as (losses & generated & h' & s1 & Hch & Hlen & Hrun).
  destruct (chunks_run_trace laws Hsize _ _ _ _ _ Hch)
    as (_ & _ & _ & _ & _ & _ & _ & _ & _ & _ & Hs).
  destruct (chunks_run_generated _ _ _ _ _ Hch) as (letters & Hg & Hll & Hall).
  simpl in Hg. subst generated.
  eexists h', _, _. split_and!; [exact Hrun | simpl; by rewrite Hs | | ]; simpl.
  - rewrite py_slice_prefix by lia. change (Z.to_nat 750) with 750%nat.
    by rewrite length_take, Hll, Hlen.
  - rewrite py_slice_prefix by lia. by apply Forall_take.
Qed.

(** ** More on generation *)

Lemma generate_read_only_outcome prime_str str_len temperature (s : state char) :
  outcome (λ _ s', read_only s s') (λ _, True)
          (generate prime_str str_len temperature s).
Proof.
  unfold generate.
  eapply outcome_bind; [apply lift_any | ]. intros prime ? [_ ->].
  eapply outcome_bind.
  { apply (for_range_outcome (λ _ (_ : tensor3 num) st, read_only s st)).
    - done.
    - intros j h st _ Hro. unfold prime_step.
      eapply outcome_bind; [apply lift_any | ]. intros xi ? [_ ->].
      eapply outcome_bind; [apply forward_any | ]. intros [out h'] ? ->.
      apply outcome_ret. exact Hro. }
  intros h1 s1 Hro1.
  eapply outcome_bind; [apply lift_any | ]. intros x0 ? [_ ->].
  eapply outcome_bind.
  { apply (for_range_outcome
      (λ _ (_ : nat * tensor3 num * list char) st, read_only s st)).
    - exact Hro1.
    - intros j [[x h] gen] st _ Hro. unfold sample_step.
      eapply outcome_bind; [apply forward_any | ]. intros [out h'] ? ->.
      eapply outcome_bind; [apply multinomial_any | ]. intros i ? [g ->].
      eapply outcome_bind; [apply lift_any | ]. intros c ? [_ ->].
      apply outcome_ret. exact Hro. }
  intros [[x h] gen] s2 Hro2. apply outcome_ret. exact Hro2.
Qed.

(** X8.  [generate] only reads the model: when it returns, the parameters,
    numpy's generator, the list [costs] and the printed reports are what
    they were before the call, for every prime, length and temperature. *)
Theorem generate_read_only prime_str str_len temperature (s : state char)
    str (s' : state char) :
  generate prime_str str_len temperature s = Ok (str, s') →
  read_only s s'.
Proof.
  intros Hgen.
  exact (outcome_Ok _ _ _ _ _
           (generate_read_only_outcome prime_str str_len temperature s) Hgen).
Qed.

Lemma cell_inputs_app (tr1 tr2 : list event) :
  cell_inputs (tr1 ++ tr2) = cell_inputs tr1 ++ cell_inputs tr2.
Proof.
  induction tr1 as [|[x h|w i] tr1 IH]; simpl; [done | by rewrite IH | done].
Qed.

Lemma draws_app (tr1 tr2 : list event) :
  draws (tr1 ++ tr2) = draws tr1 ++ draws tr2.
Proof.
  induction tr1 as [|[x h|w i] tr1 IH]; simpl; [done | done | by rewrite IH].
Qed.

Lemma sample_trace_inputs x0 tr ids x :
  sample_trace x0 tr ids x →
  cell_inputs tr = take (length ids) (x0 :: ids) ∧
  draws tr = ids ∧
  last (x0 :: ids) = Some x.
Proof.
  induction 1 as [|x0 tr ids x h w i _ (Hin & Hdr & Hlast) Hw Hi].
  - done.
  - rewrite cell_inputs_app, draws_app, Hin, Hdr. simpl cell_inputs. simpl draws.
    apply last_Some in Hlast as [l' Hl'].
    assert (length l' = length ids) as Hlen.
    { apply (f_equal length) in Hl'. rewrite length_app in Hl'. simpl in Hl'. lia. }
    split_and!.
    + rewrite length_app. simpl length.
      rewrite app_comm_cons, Hl'.
      rewrite <- Hlen, take_app_length.
      replace (length l' + 1)%nat with (length (l' ++ [x])) by
        (rewrite length_app; simpl; lia).
      by rewrite take_app_length.
    + done.
    + rewrite app_comm_cons. apply last_snoc.
Qed.

(** X11.  [generate] is autoregressive: on a non-empty in-vocabulary prime,
    a run that returns has made [str_len] draws (none for a negative
    [str_len]); the cell was fed the ids of the prime, then the last of
    them again and every draw but the last, each draw being the input of
    the call that follows it; and the returned string is the prime followed
    by the decoding of the draws. *)
Theorem generate_autoregressive prime_str str_len temperature (s : state char)
    str (s' : state char) :
  TorchLaws T →
  prime_str ≠ [] → (∀ c, c ∈ prime_str → c ∈ rawtxt) →
  generate prime_str str_len temperature s = Ok (str, s') →
  ∃ prime x0 tr sampled,
    maparray prime_str let_to_num = Ok prime ∧
    last prime = Some x0 ∧
    trace s' = trace s ++ tr ∧
    length (draws tr) = Z.to_nat str_len ∧
    cell_inputs tr = prime ++ take (Z.to_nat str_len) (x0 :: draws tr) ∧
    maparray (draws tr) num_to_let = Ok sampled ∧
    str = prime_str ++ sampled.
Proof.
  intros laws Hne Hin Hgen.
  pose proof (generate_Ok_post laws _ _ _ _ _ _ Hne Hin Hgen)
    as (prime & x0 & tr1 & tr2 & ids & sampled & x & Hm & Hlast & Htr & Hfw & _
        & Hst & Hl & Hdec & ->).
  destruct (sample_trace_inputs _ _ _ _ Hst) as (Hin2 & Hdr2 & _).
  pose proof (fed_before_sample_Forall2 _ _ Hfw) as Hfed.
  destruct (all_forward_cell_inputs tr1) as [Hin1 Hdr1].
  { rewrite Hfed. symmetry. by eapply Forall2_length. }
  exists prime, x0, (tr1 ++ tr2), sampled.
  rewrite cell_inputs_app, draws_app, Hin1, Hdr1, Hin2, Hdr2, Hfed. simpl.
  split_and!; try done.
  - by rewrite Hl.
  - by apply maparray_Forall2.
Qed.

(** ** The whole training *)

(** X5.  With [0 < chunk_size < len(X)], [train(no_epochs)] returns after
    [no_epochs] epochs (none for a negative number): it appends one cost
    per epoch to [costs] and prints one report per epoch, numbered from 1
    to [no_epochs] and carrying these costs in order. *)
Theorem train_reports no_epochs (s : state char) :
  TorchLaws T → 0 < chunk_size < len X →
  ∃ s' reports,
    train no_epochs s = Ok (tt, s') ∧
    stdout s' = stdout s ++ reports ∧
    costs s' = costs s ++ (rep_cost <$> reports) ∧
    rep_epoch <$> reports = seqZ 1 no_epochs ∧
    length reports = Z.to_nat no_epochs.
Proof.
  intros laws Hsize.
  destruct (outcome_total _ _
    (for_range_outcome
       (λ j (_ : option (tensor3 num)) st, ∃ reports,
          stdout st = stdout s ++ reports ∧
          costs st = costs s ++ (rep_cost <$> reports) ∧
          rep_epoch <$> reports = seqZ 1 (Z.of_nat j))
       (λ _, False) no_epochs train_epoch None s
       ltac:(exists []; by rewrite !app_nil_r)
       ltac:(intros j h st _ (reports & Hs & Hc & He);
             destruct (train_epoch_run laws Hsize (Z.of_nat j) h st)
               as (losses & generated & h' & s1 & Hch & _ & ->);
             destruct (chunks_run_trace laws Hsize _ _ _ _ _ Hch)
               as (_ & _ & _ & _ & _ & _ & _ & _ & _ & Hc1 & Hs1);
             simpl; eexists (reports ++ [_]); rewrite !fmap_app; simpl;
             split_and!;
               [by rewrite Hs1, Hs, <- app_assoc
               | by rewrite Hc1, Hc, <- app_assoc
               | by rewrite He, seqZ_S, (Z.add_comm 1)])))
    as (h' & s' & Hloop & reports & Hs & Hc & He).
  exists s', reports. unfold train. rewrite run_bind_unfold, Hloop.
  assert (seqZ 1 (Z.of_nat (Z.to_nat no_epochs)) = seqZ 1 no_epochs) as Hseq.
  { destruct (Z.le_gt_cases 0 no_epochs).
    - by rewrite Z2Nat.id.
    - replace (Z.to_nat no_epochs) with 0%nat by lia. by rewrite !seqZ_nil by lia. }
  rewrite Hseq in He. split_and!; try done.
  apply (f_equal length) in He. by rewrite length_fmap, length_seqZ in He.
Qed.

(** X6.  With a positive [chunk_size] that is not below [len(X)],
    [train(no_epochs)] with at least one epoch raises in its first epoch:
    ValueError from [random_chunk] when [chunk_size = len(X)],
    ZeroDivisionError from the average over no chunk when
    [chunk_size > len(X)]. *)
Theorem train_chunk_too_large no_epochs (s : state char) :
  0 < chunk_size → len X ≤ chunk_size → 0 < no_epochs →
  train no_epochs s =
    Raise (if chunk_size =? len X then ValueError else ZeroDivisionError).
Proof.
  intros Hpos Hle Hn. unfold train, for_range.
  rewrite run_bind_unfold, seqZ_cons by done. simpl for_each.
  by rewrite run_bind_unfold, train_epoch_chunk_too_large.
Qed.

End Notebook.

(** * The concrete instance *)

Lemma argmax_from_lt i best bv v :
  (best < i)%nat → (argmax_from i best bv v < i + length v)%nat.
Proof.
  revert i best bv. induction v as [|a v IH]; intros i best bv Hlt; simpl.
  - lia.
  - destruct (bv <? a).
    + specialize (IH (S i) i a). lia.
    + specialize (IH (S i) best bv). lia.
Qed.

Lemma demo_laws : TorchLaws demo.
Proof.
  split.
  - intros n θ v. simpl. by rewrite length_fmap, length_seq.
  - intros [|a v] Hv; [done | ]. simpl.
    pose proof (argmax_from_lt 1 0 a v). lia.
  - intros lo hi g Hlt. simpl.
    pose proof (Z.mod_pos_bound g (hi - lo)). lia.
  - intros [|a w] g i g'; simpl; [done | ]. intros [= <- _].
    pose proof (Z.mod_pos_bound g (len (a :: w))). unfold len in *.
    simpl length in *. lia.
Qed.

Lemma returns_Ok {A B} (r : result (A * B)) :
  returns r = true → ∃ a b, r = Ok (a, b).
Proof. destruct r as [[a b]|e]; [by exists a, b | done]. Qed.

Lemma demo_sampler_total (w : list Z) (g : Z) :
  length w = nchars abab → is_Some (demo_multinomial w g).
Proof.
  intros Hw. destruct w as [|a w]; [vm_compute in Hw; discriminate Hw | ].
  by eexists.
Qed.

Lemma abab_in_vocab (prime_str : list ascii) :
  Forall (λ c, c ∈ abab) prime_str → ∀ c, c ∈ prime_str → c ∈ abab.
Proof. intros Hall c Hc. by eapply Forall_forall in Hall. Qed.

(** * The properties on the corpus "abab" *)

(** C2 on the corpus "abab". *)
Lemma shift_invariant_abab :
  maparray abab (let_to_num abab) = Ok (X abab) ∧
  length (X abab) = length abab ∧
  length (Y abab) = length (X abab) ∧
  ∀ i, (i < length (X abab))%nat →
       Y abab !! i = X abab !! ((i + 1) mod length (X abab))%nat.
Proof. apply (shift_invariant abab). done. Defined.

(** C3 on the corpus "abab" with chunks of 2. *)
Lemma random_chunk_uniform_abab :
  0 < 2 < len (X abab) ∧
  random_chunk (M:=dist) abab 2 =
    (λ k, (Ok (py_slice (X abab) k (k + 2), py_slice (Y abab) k (k + 2)),
           (1 / Qc_of_Z (len (X abab) - 2))%Qc)) <$> seqZ 0 (len (X abab) - 2).
Proof.
  assert (0 < 2 < len (X abab)) as Hsize by (vm_compute; split; reflexivity).
  split; [exact Hsize | ].
  exact (proj1 (random_chunk_uniform (T:=demo) abab 2 demo_laws Hsize)).
Defined.


(** C5 on the corpus "abab": an epoch with chunks of 2, and
    [generate("a", 5, 1)]. *)
Lemma hidden_state_fresh_abab :
  ∃ str s2,
    generate (T:=demo) abab (chars "a") 5 1 s0 = Ok (str, s2) ∧
    (∃ h' s' tr,
       train_epoch abab 2 0 None s0 = Ok (h', s') ∧
       trace s' = trace s0 ++ tr ∧
       length tr = (Z.to_nat (len (X abab) / 2) * Z.to_nat 2)%nat ∧
       ∀ j, (j < Z.to_nat (len (X abab) / 2))%nat →
         ∃ x, tr !! (j * Z.to_nat 2)%nat
              = Some (EvForward x (init_hidden (myrnn abab)))) ∧
    (∃ x rest, trace s2 = trace s0 ++ EvForward x (init_hidden (myrnn abab)) :: rest).
Proof.
  destruct (returns_Ok (generate (T:=demo) abab (chars "a") 5 1 s0))
    as (str & s2 & Hgen); [vm_compute; reflexivity | ].
  exists str, s2. split; [exact Hgen | ].
  destruct (hidden_state_fresh (T:=demo) abab 2 0 None s0 (chars "a") 5 1 str s2
              demo_laws) as (_ & Hepoch & _ & Hgenerate).
  - vm_compute. split; reflexivity.
  - discriminate.
  - apply abab_in_vocab. repeat constructor.
  - exact Hgen.
  - split; [exact Hepoch | exact Hgenerate].
Defined.

(** C9 on the generation scenario: corpus "abab", prime "a", length 5,
    temperature 1. *)
Lemma generate_length_prefix_abab :
  ∃ str s',
    generate (T:=demo) abab (chars "a") 5 1 s0 = Ok (str, s') ∧
    len str = len (chars "a") + 5 ∧ chars "a" `prefix_of` str.
Proof.
  destruct (generate_length_prefix (T:=demo) abab (chars "a") 5 1 s0 demo_laws)
    as (Hret & _ & Htotal).
  - discriminate.
  - apply abab_in_vocab. repeat constructor.
  - lia.
  - destruct (Htotal demo_sampler_total) as (str & s' & Hgen).
    exists str, s'. split; [exact Hgen | by apply (Hret str s')].
Defined.

(** C10 on the generation scenario. *)
Lemma sampled_ids_in_vocabulary_abab :
  ∃ str s',
    generate (T:=demo) abab (chars "a") 5 1 s0 = Ok (str, s') ∧
    ∃ tr ids sampled,
      trace s' = trace s0 ++ tr ∧
      (∀ w i, EvSample w i ∈ tr →
         length w = nchars abab ∧ (i < nchars abab)%nat ∧ i ∈ ids) ∧
      length ids = Z.to_nat 5 ∧
      Forall2 (λ i c, dict_get (num_to_let abab) i = Ok c) ids sampled ∧
      str = chars "a" ++ sampled ∧
      ∀ c, c ∈ sampled → c ∈ abab.
Proof.
  destruct (returns_Ok (generate (T:=demo) abab (chars "a") 5 1 s0))
    as (str & s' & Hgen); [vm_compute; reflexivity | ].
  exists str, s'. split; [exact Hgen | ].
  destruct (sampled_ids_in_vocabulary (T:=demo) abab (chars "a") 5 1 s0 demo_laws)
    as (_ & Hret).
  - discriminate.
  - apply abab_in_vocab. repeat constructor.
  - by apply Hret.
Defined.

(** C7, as the code has it, at the temperature -1. *)
Lemma generate_any_temperature_abab :
  ((∃ str s', generate (T:=demo) abab (chars "a") 5 (-1) s0 = Ok (str, s')) ∨
   generate (T:=demo) abab (chars "a") 5 (-1) s0
     = Raise (RuntimeError InvalidMultinomial)) ∧
  (5 ≤ 0 →
   ∃ s', generate (T:=demo) abab (chars "a") 5 (-1) s0 = Ok (chars "a", s')).
Proof.
  apply (generate_any_temperature (T:=demo) abab (chars "a") 5 (-1) s0 demo_laws).
  - discriminate.
  - apply abab_in_vocab. repeat constructor.
Defined.

(** C7 fails on the code: with the temperatures 0 and -1 [generate]
    returns a string. *)
Lemma generate_nonpositive_temperature :
  value_of (generate (T:=demo) abab (chars "a") 0 0 s0) = Ok (chars "a") ∧
  value_of (generate (T:=demo) abab (chars "a") 5 (-1) s0) = Ok (chars "aababa").
Proof. split; vm_compute; reflexivity. Qed.

(** C8 fails on the code: on the empty corpus [create_map] returns the
    empty map, and the vocabulary has no character. *)
Lemma create_map_empty_corpus :
  create_map (@nil ascii) = ∅ ∧ nchars (@nil ascii) = 0%nat.
Proof. split; reflexivity. Qed.

(** C1 on the corpus "abab" with the prime "ab": the ids of "a", "b" and
    once more "b" are fed to the cell before the first draw. *)
Lemma generate_feeds_last_twice_ab :
  ∃ str s',
    generate (T:=demo) abab (chars "ab") 1 1 s0 = Ok (str, s') ∧
    ∃ prime x0 tr,
      maparray (chars "ab") (let_to_num abab) = Ok prime ∧
      last prime = Some x0 ∧
      trace s' = trace s0 ++ tr ∧
      fed_before_sample tr = prime ++ [x0].
Proof.
  destruct (returns_Ok (generate (T:=demo) abab (chars "ab") 1 1 s0))
    as (str & s' & Hgen); [vm_compute; reflexivity | ].
  exists str, s'. split; [exact Hgen | ].
  apply (generate_feeds_last_twice (T:=demo) abab (chars "ab") 1 1 s0 str s'
           demo_laws).
  - discriminate.
  - apply abab_in_vocab. repeat constructor.
  - lia.
  - exact Hgen.
Defined.

(** The same run, evaluated: "ab" is encoded as [0; 1], and the cell is
    fed 0, 1, 1 before the first draw. *)
Example generate_ab_evaluated :
  maparray (chars "ab") (let_to_num abab) = Ok [0%nat; 1%nat] ∧
  match generate (T:=demo) abab (chars "ab") 1 1 s0 with
  | Ok (_, s) => fed_before_sample (trace s)
  | Raise _ => []
  end = [0%nat; 1%nat; 1%nat].
Proof. split; vm_compute; reflexivity. Qed.

(** * More of the notebook on the corpus "abab" *)

(** X4 on the corpus "abab" with chunks of 2, which fit, and of 4, which
    do not. *)
Lemma random_chunk_returns_iff_abab :
  (((∃ r s', random_chunk (M:=run (H:=demo) ascii) abab 2 s0 = Ok (r, s'))
    ↔ 2 < len (X abab)) ∧
   (len (X abab) ≤ 2 →
      random_chunk (M:=run (H:=demo) ascii) abab 2 s0 = Raise ValueError ∧
      random_chunk (M:=dist) abab 2 = [(Raise ValueError, 1%Qc)])) ∧
  (((∃ r s', random_chunk (M:=run (H:=demo) ascii) abab 4 s0 = Ok (r, s'))
    ↔ 4 < len (X abab)) ∧
   (len (X abab) ≤ 4 →
      random_chunk (M:=run (H:=demo) ascii) abab 4 s0 = Raise ValueError ∧
      random_chunk (M:=dist) abab 4 = [(Raise ValueError, 1%Qc)])).
Proof.
  split.
  - apply (random_chunk_returns_iff (T:=demo) abab 2 s0). lia.
  - apply (random_chunk_returns_iff (T:=demo) abab 4 s0). lia.
Defined.

(** X7 with the prime "z". *)
Lemma generate_unknown_character_z :
  generate (T:=demo) abab (chars "z") 5 1 s0 = Raise KeyError.
Proof.
  apply (generate_unknown_character (T:=demo) abab (chars "z") 5 1 s0).
  exists "z"%char. split; [by left | ].
  unfold abab, chars. simpl. intros Hin.
  repeat (apply elem_of_cons in Hin as [Hin | Hin]; [discriminate Hin | ]).
  by apply elem_of_nil in Hin.
Defined.

(** X8 on the generation scenario. *)
Lemma generate_read_only_abab :
  ∃ str s',
    generate (T:=demo) abab (chars "a") 5 1 s0 = Ok (str, s') ∧
    read_only s0 s'.
Proof.
  destruct (returns_Ok (generate (T:=demo) abab (chars "a") 5 1 s0))
    as (str & s' & Hgen); [vm_compute; reflexivity | ].
  exists str, s'. split; [exact Hgen | ].
  exact (generate_read_only (T:=demo) abab (chars "a") 5 1 s0 str s' Hgen).
Defined.

(** X9 on the first epoch with chunks of 2. *)
Lemma epoch_parameter_updates_abab :
  ∃ offsets tr h' s',
    train_epoch (T:=demo) abab 2 0 None s0 = Ok (h', s') ∧
    Z.of_nat (length offsets) = len (X abab) / 2 ∧
    offsets = (drawn_offsets (T:=demo) abab 2 (length offsets) (np_gen s0)).1 ∧
    np_gen s' = (drawn_offsets (T:=demo) abab 2 (length offsets) (np_gen s0)).2 ∧
    Forall (λ k, 0 ≤ k < len (X abab) - 2) offsets ∧
    theta s' = adam_steps (T:=demo) abab 2 offsets (theta s0) ∧
    trace s' = trace s0 ++ tr ∧
    cell_inputs tr = concat ((λ k, py_slice (X abab) k (k + 2)) <$> offsets) ∧
    draws tr = [] ∧
    torch_gen s' = torch_gen s0.
Proof.
  apply (epoch_parameter_updates (T:=demo) abab 2 0 None s0 demo_laws).
  vm_compute. split; reflexivity.
Defined.

(** X10 on the first epoch with chunks of 2. *)
Lemma epoch_generated_text_abab :
  ∃ h' s' r,
    train_epoch (T:=demo) abab 2 0 None s0 = Ok (h', s') ∧
    stdout s' = stdout s0 ++ [r] ∧
    length (rep_text r)
      = (750 `min` (Z.to_nat (len (X abab) / 2) * Z.to_nat 2))%nat ∧
    Forall (λ c, c ∈ abab) (rep_text r).
Proof.
  apply (epoch_generated_text (T:=demo) abab 2 0 None s0 demo_laws).
  vm_compute. split; reflexivity.
Defined.

(** X11 on the generation scenario. *)
Lemma generate_autoregressive_abab :
  ∃ str s',
    generate (T:=demo) abab (chars "a") 5 1 s0 = Ok (str, s') ∧
    ∃ prime x0 tr sampled,
      maparray (chars "a") (let_to_num abab) = Ok prime ∧
      last prime = Some x0 ∧
      trace s' = trace s0 ++ tr ∧
      length (draws tr) = Z.to_nat 5 ∧
      cell_inputs tr = prime ++ take (Z.to_nat 5) (x0 :: draws tr) ∧
      maparray (draws tr) (num_to_let abab) = Ok sampled ∧
      str = chars "a" ++ sampled.
Proof.
  destruct (returns_Ok (generate (T:=demo) abab (chars "a") 5 1 s0))
    as (str & s' & Hgen); [vm_compute; reflexivity | ].
  exists str, s'. split; [exact Hgen | ].
  apply (generate_autoregressive (T:=demo) abab (chars "a") 5 1 s0 str s'
           demo_laws).
  - discriminate.
  - apply abab_in_vocab. repeat constructor.
  - exact Hgen.
Defined.

(** X5 with three epochs and chunks of 2. *)
Lemma train_reports_abab :
  ∃ s' reports,
    train (T:=demo) abab 2 3 s0 = Ok (tt, s') ∧
    stdout s' = stdout s0 ++ reports ∧
    costs s' = costs s0 ++ (rep_cost <$> reports) ∧
    rep_epoch <$> reports = seqZ 1 3 ∧
    length reports = Z.to_nat 3.
Proof.
  apply (train_reports (T:=demo) abab 2 3 s0 demo_laws).
  vm_compute. split; reflexivity.
Defined.

(** X6 with chunks of 4, the length of the corpus. *)
Lemma train_chunk_too_large_abab :
  (4 =? len (X abab)) = true ∧
  train (T:=demo) abab 4 3 s0 =
    Raise (if 4 =? len (X abab) then ValueError else ZeroDivisionError).
Proof.
  split; [vm_compute; reflexivity | ].
  apply (train_chunk_too_large (T:=demo) abab 4 3 s0).
  - lia.
  - vm_compute. discriminate.
  - lia.
Defined.
